(** * StarTPMPS: Trotterized time evolution of purified states on a star

    A shallow embedding of [tmps/star/tpmps.py] (class [StarTPMPS]).

    - Python integers are [Z]; Python floats (overlaps, norms, Trotter error
      estimates) are exact rationals [Q]: every finite float is a rational,
      rounding is not modelled.  Where rounding or underflow decides a
      property, the lines involved are read in binary64 as well ([Binary64]).
    - [mpnum] arrays are mutable objects.  They live in a store addressed by
      locations, so that two names for one object (the argument [psi_0] of
      [reset] and the attribute [self.psi_t]) are one cell.
    - The tensor arithmetic itself (contraction, SVD truncation, norms) is the
      contract of an external library; it is a type class here and every
      general result below holds for each of its instances.  Its operations
      are total functions: a failure inside the library is outside the model.
    - The base class [StarTMPBase] is described by what [StarTPMPS] needs of
      it: the attributes it sets, its constructor and its [reset].
    - A method is a computation over the pair (the object [self], the store),
      which either returns or raises, and which emits the list of collaborator
      calls it made, in order.
    - [info()] only reads attributes and is left out. *)

From Stdlib Require Import ZArith QArith Qabs Bool List String Lia Lqa.
From Corelib Require SpecFloat.
Import ListNotations.

Set Implicit Arguments.

(** ** The tensor-array contract ([mpnum] and [tmps.utils]) *)

(** [axes] of [mp.partialdot]: a pair of index pairs. *)
Definition Axes : Type := ((Z * Z) * (Z * Z))%type.

Class MPNum : Type := {
  (** [mp.MPArray] values: the chain of a state *)
  MPArray : Type;
  (** the local operators of a Trotter step *)
  MPO : Type;
  (** keyword dictionaries passed to the compression routines *)
  Kwargs : Type;
  (** target canonical forms *)
  CForm : Type;
  (** the local compression object [self.lc] *)
  LocalCompression : Type;
  (** [mp.partialdot(mpo, psi, start_at=.., axes=..)] *)
  mp_partialdot : MPO -> MPArray -> Z -> Axes -> MPArray;
  (** [mp.norm(psi)] *)
  mp_norm : MPArray -> Q;
  (** [psi.compress( **kwargs )]: the compressed array and the overlap *)
  mpa_compress : MPArray -> Kwargs -> MPArray * Q;
  (** [psi /= x] *)
  mpa_itruediv : MPArray -> Q -> MPArray;
  (** [len(mpo)]: the number of sites an operator spans *)
  mpo_len : MPO -> nat;
  (** [canonicalize_to(psi, to_cform=..)] *)
  cform_canonicalize : MPArray -> CForm -> MPArray;
  (** [compress_pmps(psi, to_cform=.., **kwargs)] *)
  pmps_compress : MPArray -> CForm -> Kwargs -> MPArray;
  (** [compress_pmps_sites(psi, relerr=.., rank=.., stable=.., to_cform=..)] *)
  pmps_compress_sites : MPArray -> option Q -> option Z -> bool -> CForm -> MPArray;
  (** [lc.compress(psi, start_at)] *)
  lc_reduce : LocalCompression -> MPArray -> Z -> MPArray
}.

(** ** The propagator (attributes read by [StarTPMPS]) *)

Module Propagator.
Record t `{MPNum} : Type := {
  L : Z;
  system_index : Z;
  ancilla_sites : bool;
  build_adj : bool;
  to_cform : CForm;
  trotter_steps : list (Z * MPO);
  step_trotter_error : Q
}.
End Propagator.

(** ** Store, calls and exceptions *)

Definition loc : Type := nat.

(** Calls to the collaborators, with the object they act on. *)
Inductive Call `{MPNum} : Type :=
| CallPartialdot (psi : loc) (start_at : Z) (res : loc)
| CallCompress (psi : loc) (kw : Kwargs)
| CallLcCompress (psi : loc) (start_at : Z)
| CallCompressPmpsSites (psi : loc)
| CallCanonicalizeTo (psi : loc)
| CallCompressPmps (psi : loc) (kw : Kwargs)
| CallItruediv (psi : loc).

Record Store `{MPNum} : Type := {
  cell : loc -> MPArray;
  next : loc
}.

Definition write `{MPNum} (h : Store) (l : loc) (a : MPArray) : Store :=
  {| cell := fun l' => if Nat.eqb l' l then a else cell h l';
     next := next h |}.

Definition alloc `{MPNum} (h : Store) (a : MPArray) : loc * Store :=
  (next h, {| cell := fun l' => if Nat.eqb l' (next h) then a else cell h l';
              next := S (next h) |}).

Inductive exn : Type :=
| AssertAncillaSites      (* assert self.propagator.ancilla_sites *)
| AssertNotBuildAdj       (* assert not self.propagator.build_adj *)
| ShapeMismatch.          (* raised by the base class *)

Inductive result (A : Type) : Type :=
| Ok (a : A)
| Raise (e : exn).
Arguments Raise {A} e.

(** ** The monad: state, exceptions and the emitted calls *)

Section Monad.
Context `{MPNum}.

Definition M (S A : Type) : Type := S -> result A * S * list Call.

Definition ret {S A} (a : A) : M S A := fun s => (Ok a, s, []).

Definition bind {S A B} (m : M S A) (k : A -> M S B) : M S B :=
  fun s =>
    match m s with
    | (Ok a, s1, t1) =>
        match k a s1 with
        | (r, s2, t2) => (r, s2, t1 ++ t2)
        end
    | (Raise e, s1, t1) => (Raise e, s1, t1)
    end.

Definition raise {S A} (e : exn) : M S A := fun s => (Raise e, s, []).

Definition assert {S} (b : bool) (e : exn) : M S unit :=
  if b then ret tt else raise e.

End Monad.

Declare Scope monad_scope.
Delimit Scope monad_scope with monad.
Notation "x <- c ;; k" := (bind c (fun x => k))
  (at level 61, c at next level, right associativity) : monad_scope.
Notation "' pat <- c ;; k" := (bind c (fun x => match x with pat => k end))
  (at level 61, pat pattern, c at next level, right associativity) : monad_scope.
Notation "c ;; k" := (bind c (fun _ => k))
  (at level 61, right associativity) : monad_scope.
Local Open Scope monad_scope.

(** The loop [for b in l: acc = body(acc, b)]. *)
Fixpoint for_each `{MPNum} {S A B} (l : list B) (body : A -> B -> M S A) (acc : A)
  : M S A :=
  match l with
  | [] => ret acc
  | b :: l' => acc' <- body acc b ;; for_each l' body acc'
  end.

(** ** The collaborators as commands on the store *)

Section StoreCommands.
Context `{MPNum}.

(** [mp.partialdot] returns a new array. *)
Definition partialdot (mpo : MPO) (psi : loc) (start_at : Z) (axes : Axes)
  : M Store loc :=
  fun h =>
    let (l, h') := alloc h (mp_partialdot mpo (cell h psi) start_at axes) in
    (Ok l, h', [CallPartialdot psi start_at l]).

(** [mp.norm] reads the array. *)
Definition norm (psi : loc) : M Store Q :=
  fun h => (Ok (mp_norm (cell h psi)), h, []).

(** [psi.compress( **kw )] works in place and returns the overlap. *)
Definition compress (psi : loc) (kw : Kwargs) : M Store Q :=
  fun h =>
    let r := mpa_compress (cell h psi) kw in
    (Ok (snd r), write h psi (fst r), [CallCompress psi kw]).

(** [psi.__itruediv__(x)] works in place and returns [psi] itself. *)
Definition itruediv (psi : loc) (x : Q) : M Store loc :=
  fun h => (Ok psi, write h psi (mpa_itruediv (cell h psi) x), [CallItruediv psi]).

Definition canonicalize_to (psi : loc) (cf : CForm) : M Store unit :=
  fun h => (Ok tt, write h psi (cform_canonicalize (cell h psi) cf),
            [CallCanonicalizeTo psi]).

Definition compress_pmps (psi : loc) (cf : CForm) (kw : Kwargs) : M Store unit :=
  fun h => (Ok tt, write h psi (pmps_compress (cell h psi) cf kw),
            [CallCompressPmps psi kw]).

Definition compress_pmps_sites (psi : loc) (relerr : option Q) (rank : option Z)
    (stable : bool) (cf : CForm) : M Store unit :=
  fun h => (Ok tt, write h psi (pmps_compress_sites (cell h psi) relerr rank stable cf),
            [CallCompressPmpsSites psi]).

Definition lc_compress (lc : LocalCompression) (psi : loc) (start_at : Z)
  : M Store unit :=
  fun h => (Ok tt, write h psi (lc_reduce lc (cell h psi) start_at),
            [CallLcCompress psi start_at]).
End StoreCommands.

(** ** The orchestrator object *)

(** What the base class derives from the propagator and the compression
    keywords of the state, and [evolve] reads as attributes of [self]. *)
Record Settings `{MPNum} : Type := {
  cfg_state_compression_kwargs : Kwargs;
  cfg_canonicalize_every_step : bool;
  cfg_full_compression : bool;
  cfg_final_compression : bool;
  cfg_lc : LocalCompression;
  cfg_compress_sites_step : option Z;
  cfg_compress_sites_relerr : option Q;
  cfg_compress_sites_rank : option Z;
  cfg_compress_sites_stable : bool
}.

(** The attributes the base class [StarTMPBase] holds. *)
Record Base `{MPNum} : Type := {
  base_psi_t : loc;
  base_propagator : Propagator.t;
  base_settings : Settings;
  base_t0 : Q;
  base_stepno : Z
}.

(** The attributes [StarTPMPS] adds. *)
Record StarTPMPS `{MPNum} : Type := {
  base : Base;
  mpa_type : string;
  system_index : Z;
  pmps_compression_step : Z;
  axes : Axes;
  to_cform : CForm;
  last_overlap : Q;
  cumulative_overlap : Q;
  base_overlap : Q;
  trotter_error : Q
}.

(** The parts of the base class that its description leaves open: the
    compatibility test between a propagator and a chain, and the settings it
    derives from the compression keywords. *)
Class StarTMPBase `{MPNum} : Type := {
  shape_compatible : Propagator.t -> MPArray -> bool;
  derive_settings : Propagator.t -> option Kwargs -> Settings
}.

Section Object.
Context `{MPNum}.

(** Attributes of [self] inherited from the base class. *)
Definition psi_t (s : StarTPMPS) : loc := base_psi_t (base s).
Definition propagator (s : StarTPMPS) : Propagator.t := base_propagator (base s).
Definition stepno (s : StarTPMPS) : Z := base_stepno (base s).
Definition state_compression_kwargs (s : StarTPMPS) : Kwargs :=
  cfg_state_compression_kwargs (base_settings (base s)).
Definition canonicalize_every_step (s : StarTPMPS) : bool :=
  cfg_canonicalize_every_step (base_settings (base s)).
Definition full_compression (s : StarTPMPS) : bool :=
  cfg_full_compression (base_settings (base s)).
Definition final_compression (s : StarTPMPS) : bool :=
  cfg_final_compression (base_settings (base s)).
Definition lc (s : StarTPMPS) : LocalCompression := cfg_lc (base_settings (base s)).
Definition compress_sites_step (s : StarTPMPS) : option Z :=
  cfg_compress_sites_step (base_settings (base s)).
Definition compress_sites_relerr (s : StarTPMPS) : option Q :=
  cfg_compress_sites_relerr (base_settings (base s)).
Definition compress_sites_rank (s : StarTPMPS) : option Z :=
  cfg_compress_sites_rank (base_settings (base s)).
Definition compress_sites_stable (s : StarTPMPS) : bool :=
  cfg_compress_sites_stable (base_settings (base s)).

(** Attribute assignment. *)
Definition set_base (f : Base -> Base) (s : StarTPMPS) : StarTPMPS :=
  {| base := f (base s); mpa_type := mpa_type s; system_index := system_index s;
     pmps_compression_step := pmps_compression_step s; axes := axes s;
     to_cform := to_cform s; last_overlap := last_overlap s;
     cumulative_overlap := cumulative_overlap s; base_overlap := base_overlap s;
     trotter_error := trotter_error s |}.

Definition set_psi_t (l : loc) : StarTPMPS -> StarTPMPS :=
  set_base (fun b =>
    {| base_psi_t := l; base_propagator := base_propagator b;
       base_settings := base_settings b; base_t0 := base_t0 b;
       base_stepno := base_stepno b |}).

Definition set_stepno (n : Z) : StarTPMPS -> StarTPMPS :=
  set_base (fun b =>
    {| base_psi_t := base_psi_t b; base_propagator := base_propagator b;
       base_settings := base_settings b; base_t0 := base_t0 b;
       base_stepno := n |}).

Definition set_settings (c : Settings) : StarTPMPS -> StarTPMPS :=
  set_base (fun b =>
    {| base_psi_t := base_psi_t b; base_propagator := base_propagator b;
       base_settings := c; base_t0 := base_t0 b;
       base_stepno := base_stepno b |}).

Definition set_pmps_compression_step (n : Z) (s : StarTPMPS) : StarTPMPS :=
  {| base := base s; mpa_type := mpa_type s; system_index := system_index s;
     pmps_compression_step := n; axes := axes s;
     to_cform := to_cform s; last_overlap := last_overlap s;
     cumulative_overlap := cumulative_overlap s; base_overlap := base_overlap s;
     trotter_error := trotter_error s |}.

Definition set_last_overlap (x : Q) (s : StarTPMPS) : StarTPMPS :=
  {| base := base s; mpa_type := mpa_type s; system_index := system_index s;
     pmps_compression_step := pmps_compression_step s; axes := axes s;
     to_cform := to_cform s; last_overlap := x;
     cumulative_overlap := cumulative_overlap s; base_overlap := base_overlap s;
     trotter_error := trotter_error s |}.

Definition set_cumulative_overlap (x : Q) (s : StarTPMPS) : StarTPMPS :=
  {| base := base s; mpa_type := mpa_type s; system_index := system_index s;
     pmps_compression_step := pmps_compression_step s; axes := axes s;
     to_cform := to_cform s; last_overlap := last_overlap s;
     cumulative_overlap := x; base_overlap := base_overlap s;
     trotter_error := trotter_error s |}.

Definition set_base_overlap (x : Q) (s : StarTPMPS) : StarTPMPS :=
  {| base := base s; mpa_type := mpa_type s; system_index := system_index s;
     pmps_compression_step := pmps_compression_step s; axes := axes s;
     to_cform := to_cform s; last_overlap := last_overlap s;
     cumulative_overlap := cumulative_overlap s; base_overlap := x;
     trotter_error := trotter_error s |}.

Definition set_trotter_error (x : Q) (s : StarTPMPS) : StarTPMPS :=
  {| base := base s; mpa_type := mpa_type s; system_index := system_index s;
     pmps_compression_step := pmps_compression_step s; axes := axes s;
     to_cform := to_cform s; last_overlap := last_overlap s;
     cumulative_overlap := cumulative_overlap s; base_overlap := base_overlap s;
     trotter_error := x |}.

(** The state a method runs in: the object and the store of arrays. *)
Record Sys : Type := {
  self : StarTPMPS;
  store : Store
}.

(** Reading [self.f]. *)
Definition getf {A} (f : StarTPMPS -> A) : M Sys A :=
  fun sys => (Ok (f (self sys)), sys, []).

(** Assigning to an attribute of [self]. *)
Definition setf (g : StarTPMPS -> StarTPMPS) : M Sys unit :=
  fun sys => (Ok tt, {| self := g (self sys); store := store sys |}, []).

(** A command on the store, run inside a method. *)
Definition lift {A} (m : M Store A) : M Sys A :=
  fun sys =>
    match m (store sys) with
    | (r, h, t) => (r, {| self := self sys; store := h |}, t)
    end.

(** A method called on a given object, as a command on the store. *)
Definition call_on {A} (s : StarTPMPS) (m : M Sys A) : M Store (A * StarTPMPS) :=
  fun h =>
    match m {| self := s; store := h |} with
    | (Ok a, sys, t) => (Ok (a, self sys), store sys, t)
    | (Raise e, sys, t) => (Raise e, store sys, t)
    end.

End Object.

(** ** The methods *)

Section Methods.
Context `{MPNum} `{!StarTMPBase}.

Definition read (psi : loc) : M Store MPArray :=
  fun h => (Ok (cell h psi), h, []).

(** Modelled from the spec: [StarTMPBase.__init__] is not among the sources.
    The base class takes the initial chain, the propagator, the compression
    keywords of the state and the initial time; a chain that does not fit the
    propagator is fatal; the chain becomes the current state, the settings
    are derived, and the step counter starts at 0. *)
Definition StarTMPBase_init (psi_0 : loc) (propagator : Propagator.t)
    (state_compression_kwargs : option Kwargs) (t0 : Q) : M Store Base :=
  a <- read psi_0 ;;
  assert (shape_compatible propagator a) ShapeMismatch ;;
  ret {| base_psi_t := psi_0;
         base_propagator := propagator;
         base_settings := derive_settings propagator state_compression_kwargs;
         base_t0 := t0;
         base_stepno := 0%Z |}.

(** Modelled from the spec: [StarTMPBase.reset] is not among the sources.
    A new chain, when given, must fit the propagator (a mismatch is fatal) and
    replaces the current one; compression keywords, when given, replace the
    settings; nothing else is touched. *)
Definition StarTMPBase_reset (psi_0 : option loc)
    (state_compression_kwargs : option Kwargs) : M Sys unit :=
  match psi_0 with
  | Some p =>
      a <- lift (read p) ;;
      pr <- getf propagator ;;
      assert (shape_compatible pr a) ShapeMismatch ;;
      setf (set_psi_t p)
  | None => ret tt
  end ;;
  match state_compression_kwargs with
  | Some kw =>
      pr <- getf propagator ;;
      setf (set_settings (derive_settings pr (Some kw)))
  | None => ret tt
  end.

(** [self.psi_t /= mp.norm(self.psi_t)] *)
Definition _normalize_state : M Sys unit :=
  psi <- getf psi_t ;;
  psi' <- getf psi_t ;;
  n <- lift (norm psi') ;;
  r <- lift (itruediv psi n) ;;
  setf (set_psi_t r).

Definition normalize_state : M Sys unit :=
  psi <- getf psi_t ;;
  psi' <- getf psi_t ;;
  n <- lift (norm psi') ;;
  r <- lift (itruediv psi n) ;;
  setf (set_psi_t r).

(** [canonicalize_to(self.psi_t, to_cform=self.to_cform)] *)
Definition canonicalize_self : M Sys unit :=
  psi <- getf psi_t ;;
  cf <- getf to_cform ;;
  lift (canonicalize_to psi cf).

(** [self.psi_t.compress( **self.state_compression_kwargs )] *)
Definition compress_self : M Sys Q :=
  psi <- getf psi_t ;;
  kw <- getf state_compression_kwargs ;;
  lift (compress psi kw).

Definition __init__ (psi_0 : loc) (propagator : Propagator.t)
    (state_compression_kwargs : option Kwargs) (t0 : Q)
    (psi_0_compression_kwargs : option Kwargs) : M Store StarTPMPS :=
  b <- StarTMPBase_init psi_0 propagator state_compression_kwargs t0 ;;
  let s := {| base := b;
              mpa_type := "pmps";
              system_index := Propagator.system_index propagator;
              pmps_compression_step := 1%Z;
              axes := ((1, 3), (0, 1))%Z;
              to_cform := Propagator.to_cform propagator;
              last_overlap := 1; cumulative_overlap := 1; base_overlap := 1;
              trotter_error := 0 |} in
  (* [self.propagator] is the attribute the base class has just set *)
  assert (Propagator.ancilla_sites (base_propagator (base s))) AssertAncillaSites ;;
  assert (negb (Propagator.build_adj (base_propagator (base s)))) AssertNotBuildAdj ;;
  match psi_0_compression_kwargs with
  | None => canonicalize_to (psi_t s) (to_cform s)
  | Some kw => compress_pmps (psi_t s) (to_cform s) kw
  end ;;
  ' (_, s) <- call_on s normalize_state ;;
  ret (set_trotter_error 0
        (set_base_overlap 1 (set_cumulative_overlap 1 (set_last_overlap 1 s)))).

(** [(start_at == self.propagator.L - 2 or start_at == 0)
     and start_at != last_start_at] *)
Definition sweep_turn (L start_at last_start_at : Z) : bool :=
  ((start_at =? L - 2)%Z || (start_at =? 0)%Z) && negb (start_at =? last_start_at)%Z.

Definition is_sweep_turn (start_at last_start_at : Z) : M Sys bool :=
  L <- getf (fun s => Propagator.L (propagator s)) ;;
  ret (sweep_turn L start_at last_start_at).

(** [n == self.compress_sites_step], where the period may be [None]. *)
Definition eq_period (n : Z) (period : option Z) : bool :=
  match period with
  | Some p => (n =? p)%Z
  | None => false
  end.

(** The body of the loop of [evolve], on the local variables [overlap] and
    [last_start_at]. *)
Definition trotter_step (acc : Q * Z) (step : Z * MPO) : M Sys (Q * Z) :=
  let '(overlap, last_start_at) := acc in
  let '(start_at, trotter_mpo) := step in
  psi <- getf psi_t ;;
  ax <- getf axes ;;
  psi' <- lift (partialdot trotter_mpo psi start_at ax) ;;
  setf (set_psi_t psi') ;;
  fc <- getf full_compression ;;
  overlap <-
    (if fc then
       turn <- is_sweep_turn start_at last_start_at ;;
       if turn then
         ov <- compress_self ;;
         ret (overlap * ov)%Q
       else ret overlap
     else
       (if (1 <? mpo_len trotter_mpo)%nat then
          l <- getf lc ;;
          psi <- getf psi_t ;;
          lift (lc_compress l psi start_at)
        else ret tt) ;;
       ret overlap) ;;
  turn <- is_sweep_turn start_at last_start_at ;;
  (if turn then
     n <- getf pmps_compression_step ;;
     setf (set_pmps_compression_step (n + 1)%Z) ;;
     n <- getf pmps_compression_step ;;
     period <- getf compress_sites_step ;;
     if eq_period (n - 1)%Z period then
       psi <- getf psi_t ;;
       relerr <- getf compress_sites_relerr ;;
       rank <- getf compress_sites_rank ;;
       stable <- getf compress_sites_stable ;;
       cf <- getf to_cform ;;
       lift (compress_pmps_sites psi relerr rank stable cf) ;;
       setf (set_pmps_compression_step 1%Z)
     else ret tt
   else ret tt) ;;
  ret (overlap, start_at).

Definition evolve : M Sys unit :=
  overlap <- getf base_overlap ;;
  last_start_at <- getf system_index ;;
  ces <- getf canonicalize_every_step ;;
  (if negb ces then canonicalize_self else ret tt) ;;
  steps <- getf (fun s => Propagator.trotter_steps (propagator s)) ;;
  ' (overlap, _) <- for_each steps trotter_step (overlap, last_start_at) ;;
  fin <- getf final_compression ;;
  overlap <-
    (if fin then
       ov <- compress_self ;;
       ret (overlap * ov)%Q
     else
       ces <- getf canonicalize_every_step ;;
       (if negb ces then canonicalize_self else ret tt) ;;
       ret overlap) ;;
  _normalize_state ;;
  c <- getf cumulative_overlap ;;
  setf (set_cumulative_overlap (c * overlap)%Q) ;;
  setf (set_last_overlap overlap) ;;
  si <- getf system_index ;;
  (if (si =? 0)%Z then
     n <- getf pmps_compression_step ;;
     setf (set_pmps_compression_step (n - 1)%Z)
   else ret tt) ;;
  e <- getf trotter_error ;;
  de <- getf (fun s => Propagator.step_trotter_error (propagator s)) ;;
  setf (set_trotter_error (e + de)%Q) ;;
  n <- getf stepno ;;
  setf (set_stepno (n + 1)%Z).

Definition reset (psi_0 : option loc) (state_compression_kwargs : option Kwargs)
    (psi_0_compression_kwargs : option Kwargs) : M Sys unit :=
  match psi_0 with
  | Some p =>
      cf <- getf to_cform ;;
      match psi_0_compression_kwargs with
      | None => lift (canonicalize_to p cf)
      | Some kw => lift (compress_pmps p cf kw)
      end ;;
      normalize_state ;;
      setf (set_pmps_compression_step 0%Z) ;;
      setf (set_last_overlap 1) ;;
      setf (set_cumulative_overlap 1) ;;
      setf (set_base_overlap 1) ;;
      setf (set_trotter_error 0) ;;
      setf (set_stepno 0%Z)
  | None => ret tt
  end ;;
  StarTMPBase_reset psi_0 state_compression_kwargs.

End Methods.

(** ** Runs and observations *)

Section Observations.
Context `{MPNum} `{!StarTMPBase}.

(** [n] calls of [evolve()] in a row. *)
Fixpoint evolve_n (n : nat) : M Sys unit :=
  match n with
  | O => ret tt
  | S k => evolve ;; evolve_n k
  end.

(** The attributes the loop of [evolve] assigns to: the chain and the cadence
    counter. *)
Definition touched (p : loc) (n : Z) (s : StarTPMPS) : StarTPMPS :=
  set_pmps_compression_step n (set_psi_t p s).

(** Kinds of calls: [psi.compress], [lc.compress], [compress_pmps_sites]. *)
Definition is_full_compress (c : Call) : bool :=
  match c with CallCompress _ _ => true | _ => false end.

Definition is_local_compress (c : Call) : bool :=
  match c with CallLcCompress _ _ => true | _ => false end.

Definition is_compress_sites (c : Call) : bool :=
  match c with CallCompressPmpsSites _ => true | _ => false end.

(** The chain the orchestrator holds. *)
Definition held_chain (sys : Sys) : MPArray := cell (store sys) (psi_t (self sys)).

(** What a run leaves of the cadence: the counter and the calls of
    [compress_pmps_sites]. *)
Definition cadence_of {A} (r : result A * Sys * list Call) : Z * list Call :=
  (pmps_compression_step (self (snd (fst r))), filter is_compress_sites (snd r)).

(** Every chain compression reports an overlap in (0, 1]. *)
Definition overlaps_in_unit_interval : Prop :=
  forall (a : MPArray) (kw : Kwargs),
    (0 < snd (mpa_compress a kw) /\ snd (mpa_compress a kw) <= 1)%Q.

End Observations.

(** ** A concrete instance: chains of one amplitude

    A chain whose legs and bonds all have dimension one is a single amplitude;
    the flag records whether it is in canonical form.  Nothing can be
    truncated, so every compression retains overlap 1. *)

Module Amplitude.

Record chain : Type := { amp : Q; canonical : bool }.

(** Keywords: (canonicalize_every_step, full_compression, final_compression,
    compress_sites_step). *)
Definition kwargs : Type := (bool * bool * bool * option Z)%type.

#[export] Instance mpnum : MPNum := {|
  MPArray := chain;
  MPO := (Q * nat)%type;
  Kwargs := kwargs;
  CForm := unit;
  LocalCompression := unit;
  mp_partialdot := fun mpo psi _ _ => {| amp := fst mpo * amp psi; canonical := false |};
  mp_norm := fun psi => Qabs (amp psi);
  mpa_compress := fun psi _ => ({| amp := amp psi; canonical := true |}, 1);
  mpa_itruediv := fun psi x => {| amp := amp psi / x; canonical := canonical psi |};
  mpo_len := snd;
  cform_canonicalize := fun psi _ => {| amp := amp psi; canonical := true |};
  pmps_compress := fun psi _ _ => {| amp := amp psi; canonical := true |};
  pmps_compress_sites := fun psi _ _ _ _ => psi;
  lc_reduce := fun _ psi _ => psi
|}.

Definition settings_of (kw : kwargs) : Settings :=
  let '(ces, full, final, period) := kw in
  {| cfg_state_compression_kwargs := kw;
     cfg_canonicalize_every_step := ces;
     cfg_full_compression := full;
     cfg_final_compression := final;
     cfg_lc := tt;
     cfg_compress_sites_step := period;
     cfg_compress_sites_relerr := None;
     cfg_compress_sites_rank := None;
     cfg_compress_sites_stable := false |}.

#[export] Instance tmpbase : StarTMPBase := {|
  shape_compatible := fun _ _ => true;
  derive_settings := fun _ kw =>
    match kw with
    | Some k => settings_of k
    | None => settings_of (false, false, false, None)
    end
|}.

(** A star of five sites around site 2; one sweep visits the offsets
    1, 0, 1, 2, 3, 3, 2, 1 with two-site operators of factor 1. *)
Definition star5 : Propagator.t :=
  {| Propagator.L := 5%Z;
     Propagator.system_index := 2%Z;
     Propagator.ancilla_sites := true;
     Propagator.build_adj := false;
     Propagator.to_cform := tt;
     Propagator.trotter_steps :=
       map (fun o => (o, (1, 2%nat))) [1; 0; 1; 2; 3; 3; 2; 1]%Z;
     Propagator.step_trotter_error := 1 # 1000000 |}.

(** A store holding the amplitude 3 at location 0 and 2 at location 1. *)
Definition store0 : Store :=
  {| cell := fun l => {| amp := if Nat.eqb l 0%nat then 3 else 2; canonical := false |};
     next := 2%nat |}.

(** A method run on the orchestrator built on the chain at location 0 of
    [store0] with the keywords [kw]. *)
Definition after_init {A} (kw : kwargs) (m : M Sys A)
  : option (result A * Sys * list Call) :=
  match __init__ 0%nat star5 (Some kw) 0 None store0 with
  | (Ok s, h, _) => Some (m {| self := s; store := h |})
  | (Raise _, _, _) => None
  end.

(** The first two iterations of the loop of [evolve]: the offsets 1 and 0. *)
Definition first_two_steps : M Sys (Q * Z) :=
  overlap <- getf base_overlap ;;
  last_start_at <- getf system_index ;;
  for_each (firstn 2 (Propagator.trotter_steps star5)) trotter_step
    (overlap, last_start_at).

End Amplitude.

(** ** Further observations *)

Section Sweeps.
Context `{MPNum} `{!StarTMPBase}.

(** The offsets of the contractions among the calls, in order. *)
Definition contraction_offsets (t : list Call) : list Z :=
  flat_map (fun c => match c with CallPartialdot _ o _ => [o] | _ => [] end) t.

(** The number of sweep turns of a sequence of Trotter steps, [last] being the
    offset before the first one. *)
Fixpoint count_turns (L last : Z) (steps : list (Z * MPO)) : Z :=
  match steps with
  | [] => 0%Z
  | (start_at, _) :: rest =>
      ((if sweep_turn L start_at last then 1 else 0)
       + count_turns L start_at rest)%Z
  end.

(** The store [evolve] starts its loop on: the held chain canonicalized unless
    [canonicalize_every_step] is set. *)
Definition store_before_loop (sys : Sys) : Store :=
  if canonicalize_every_step (self sys) then store sys
  else write (store sys) (psi_t (self sys))
         (cform_canonicalize (cell (store sys) (psi_t (self sys)))
            (to_cform (self sys))).

(** The chain [reset] leaves at the location of a new state: prepared, and
    divided by its norm only when it is the chain already held. *)
Definition arrived_chain (p : loc) (p0ck : option Kwargs) (sys : Sys) : MPArray :=
  let prepared :=
    match p0ck with
    | None => cform_canonicalize (cell (store sys) p) (to_cform (self sys))
    | Some kw => pmps_compress (cell (store sys) p) (to_cform (self sys)) kw
    end in
  if Nat.eqb p (psi_t (self sys))
  then mpa_itruediv prepared (mp_norm prepared)
  else prepared.

End Sweeps.

(** A base class over the chains of one amplitude that accepts a chain only
    when its amplitude is at most 2 in absolute value. *)
Module Picky.
Import Amplitude.

Definition tmpbase : StarTMPBase (H := Amplitude.mpnum) :=
  @Build_StarTMPBase Amplitude.mpnum
    (fun _ psi => Qle_bool (Qabs (Amplitude.amp psi)) 2)
    (fun _ kw =>
       match kw with
       | Some k => Amplitude.settings_of k
       | None => Amplitude.settings_of (false, false, false, None)
       end).

(** A store holding the amplitude 3 at location 0 and 5 at location 1. *)
Definition store1 : Store (H := Amplitude.mpnum) :=
  {| cell := fun l => {| Amplitude.amp := if Nat.eqb l 0%nat then 3 else 5;
                         Amplitude.canonical := false |};
     next := 2%nat |}.

End Picky.

(** Orchestrators over the chains of one amplitude, as [__init__] leaves them
    on the star of five sites, with the chain at location 0 of a store. *)
Module Samples.
Import Amplitude.

Definition orchestrator (kw : Amplitude.kwargs) (h : Store (H := Amplitude.mpnum))
  : Sys (H := Amplitude.mpnum) :=
  {| self :=
       {| base := {| base_psi_t := 0%nat;
                     base_propagator := Amplitude.star5;
                     base_settings := Amplitude.settings_of kw;
                     base_t0 := 0;
                     base_stepno := 0%Z |};
          mpa_type := "pmps";
          system_index := 2%Z;
          pmps_compression_step := 1%Z;
          axes := ((1, 3), (0, 1))%Z;
          to_cform := tt;
          last_overlap := 1; cumulative_overlap := 1; base_overlap := 1;
          trotter_error := 0 |};
     store := h |}.

End Samples.

(** ** The running sum and the running products *)

(** [x = start; for y in ys: x = op(x, y)]: the shape of the running sum of
    [trotter_error] (lines 56 and 95) and of the running products of the
    overlaps (lines 52, 64, 73, 85 and 90), for any arithmetic. *)
Definition accumulated {A : Type} (op : A -> A -> A) (start : A) (ys : list A) : A :=
  fold_left op ys start.

Definition in_unit_interval (x : Q) : Prop := (0 < x /\ x <= 1)%Q.

Section CompressionOverlaps.
Context `{MPNum}.

(** The overlap [psi_t.compress] returns in one iteration of the loop, when
    the iteration makes that call. *)
Definition step_compress_overlaps (last_start_at : Z) (step : Z * MPO) (sys : Sys)
  : list Q :=
  let s := self sys in
  if full_compression s
     && sweep_turn (Propagator.L (propagator s)) (fst step) last_start_at
  then [snd (mpa_compress
               (mp_partialdot (snd step) (cell (store sys) (psi_t s)) (fst step)
                  (axes s))
               (state_compression_kwargs s))]
  else [].

(** The overlaps the calls of [psi_t.compress] return over the loop, in
    order. *)
Fixpoint loop_compress_overlaps (steps : list (Z * MPO)) (acc : Q * Z) (sys : Sys)
  : list Q :=
  match steps with
  | [] => []
  | step :: rest =>
      step_compress_overlaps (snd acc) step sys
      ++ match trotter_step acc step sys with
         | (Ok acc', sys', _) => loop_compress_overlaps rest acc' sys'
         | (Raise _, _, _) => []
         end
  end.

(** The overlaps the calls of [psi_t.compress] return over one [evolve()]:
    those of the loop, then the one of the final compression. *)
Definition evolve_compress_overlaps (sys : Sys) : list Q :=
  let s := self sys in
  let start := (base_overlap s, system_index s) in
  let sys0 := {| self := s; store := store_before_loop sys |} in
  let steps := Propagator.trotter_steps (propagator s) in
  loop_compress_overlaps steps start sys0
  ++ match for_each steps trotter_step start sys0 with
     | (Ok _, sys1, _) =>
         if final_compression s
         then [snd (mpa_compress (held_chain sys1) (state_compression_kwargs s))]
         else []
     | (Raise _, _, _) => []
     end.

(** The same over [n] calls of [evolve()] in a row. *)
Fixpoint run_compress_overlaps (n : nat) (sys : Sys) : list Q :=
  match n with
  | O => []
  | S k =>
      evolve_compress_overlaps sys
      ++ match evolve sys with
         | (Ok _, sys', _) => run_compress_overlaps k sys'
         | (Raise _, _, _) => []
         end
  end.

End CompressionOverlaps.

(** Binary64 numbers, the floats of Python: IEEE 754 with 53 bits of
    precision, rounding to nearest, ties to even. *)
Module Binary64.
Import SpecFloat.

Definition float : Type := spec_float.

Definition of_Z (z : Z) : float := binary_normalize 53 1024 z 0 false.
Definition add : float -> float -> float := SFadd 53 1024.
Definition mul : float -> float -> float := SFmul 53 1024.
Definition div : float -> float -> float := SFdiv 53 1024.
Definition ltb : float -> float -> bool := SFltb.
Definition leb : float -> float -> bool := SFleb.
Definition eqb : float -> float -> bool := SFeqb.

(** The literals [0], [1], [10], [0.1] and [0.5]. *)
Definition zero : float := of_Z 0.
Definition one : float := of_Z 1.
Definition ten : float := of_Z 10.
Definition tenth : float := div one ten.
Definition half : float := div one (of_Z 2).

(** [trotter_error] after [n] calls of [evolve()] with the estimate [e]:
    lines 56 and 95. *)
Definition trotter_error_after (n : nat) (e : float) : float :=
  accumulated add zero (repeat e n).

(** [cumulative_overlap] after steps whose overlaps are [ovs]: lines 52 and
    90. *)
Definition cumulative_overlap_after (ovs : list float) : float :=
  accumulated mul one ovs.

End Binary64.

(** Chains of one amplitude whose compression reports the overlap of the
    chain with itself, the square of the amplitude: 1 on a normalized chain,
    less after a contraction that shrinks it, more on a chain of norm 2. *)
Module Squared.

(** Keywords: (canonicalize_every_step, full_compression, final_compression,
    compress_sites_step). *)
Definition kwargs : Type := (bool * bool * bool * option Z)%type.

#[export] Instance mpnum : MPNum := {|
  MPArray := Amplitude.chain;
  MPO := (Q * nat)%type;
  Kwargs := kwargs;
  CForm := unit;
  LocalCompression := unit;
  mp_partialdot := fun mpo psi _ _ =>
    {| Amplitude.amp := fst mpo * Amplitude.amp psi; Amplitude.canonical := false |};
  mp_norm := fun psi => Qabs (Amplitude.amp psi);
  mpa_compress := fun psi _ =>
    ({| Amplitude.amp := Amplitude.amp psi; Amplitude.canonical := true |},
     Amplitude.amp psi * Amplitude.amp psi);
  mpa_itruediv := fun psi x =>
    {| Amplitude.amp := Amplitude.amp psi / x;
       Amplitude.canonical := Amplitude.canonical psi |};
  mpo_len := snd;
  cform_canonicalize := fun psi _ =>
    {| Amplitude.amp := Amplitude.amp psi; Amplitude.canonical := true |};
  pmps_compress := fun psi _ _ =>
    {| Amplitude.amp := Amplitude.amp psi; Amplitude.canonical := true |};
  pmps_compress_sites := fun psi _ _ _ _ => psi;
  lc_reduce := fun _ psi _ => psi
|}.

Definition settings_of (kw : kwargs) : Settings :=
  let '(ces, full, final, period) := kw in
  {| cfg_state_compression_kwargs := kw;
     cfg_canonicalize_every_step := ces;
     cfg_full_compression := full;
     cfg_final_compression := final;
     cfg_lc := tt;
     cfg_compress_sites_step := period;
     cfg_compress_sites_relerr := None;
     cfg_compress_sites_rank := None;
     cfg_compress_sites_stable := false |}.

#[export] Instance tmpbase : StarTMPBase := {|
  shape_compatible := fun _ _ => true;
  derive_settings := fun _ kw =>
    match kw with
    | Some k => settings_of k
    | None => settings_of (false, false, false, None)
    end
|}.

(** The star of five sites with two-site operators that halve the
    amplitude. *)
Definition star5 : Propagator.t :=
  {| Propagator.L := 5%Z;
     Propagator.system_index := 2%Z;
     Propagator.ancilla_sites := true;
     Propagator.build_adj := false;
     Propagator.to_cform := tt;
     Propagator.trotter_steps :=
       map (fun o => (o, (1 # 2, 2%nat))) [1; 0; 1; 2; 3; 3; 2; 1]%Z;
     Propagator.step_trotter_error := 1 # 1000000 |}.

(** A store holding the amplitude 3 at location 0 and 2 at location 1. *)
Definition store0 : Store :=
  {| cell := fun l => {| Amplitude.amp := if Nat.eqb l 0%nat then 3 else 2;
                         Amplitude.canonical := false |};
     next := 2%nat |}.

End Squared.

(** A store of chains of one amplitude that are in canonical form already:
    amplitude 3 at location 0 and 2 at location 1. *)
Module Canonical.
Import Amplitude.

Definition store0 : Store :=
  {| cell := fun l => {| amp := if Nat.eqb l 0%nat then 3 else 2; canonical := true |};
     next := 2%nat |}.

End Canonical.

(** Running a method symbolically: unfold the monad, keep arithmetic, the
    library operations and the loop folded. *)
Ltac run :=
  cbv -[Z.add Z.sub Z.eqb Z.mul Nat.ltb Nat.eqb Qmult Qplus Qdiv Qle Qlt Qeq
        sweep_turn eq_period for_each trotter_step inject_Z Z.of_nat fst snd
        MPArray MPO Kwargs CForm LocalCompression mp_partialdot mp_norm
        mpa_compress mpa_itruediv mpo_len cform_canonicalize pmps_compress
        pmps_compress_sites lc_reduce shape_compatible derive_settings].

Tactic Notation "run" "in" hyp(H) :=
  cbv -[Z.add Z.sub Z.eqb Z.mul Nat.ltb Nat.eqb Qmult Qplus Qdiv Qle Qlt Qeq
        sweep_turn eq_period for_each trotter_step inject_Z Z.of_nat fst snd
        MPArray MPO Kwargs CForm LocalCompression mp_partialdot mp_norm
        mpa_compress mpa_itruediv mpo_len cform_canonicalize pmps_compress
        pmps_compress_sites lc_reduce shape_compatible derive_settings] in H.

Ltac destruct_self s :=
  destruct s as [[? ? [? ? ? ? ? ? ? ? ?] ? ?] ? ? ? ? ? ? ? ? ?].

Ltac destruct_sys sys :=
  let s := fresh "s" in
  let h := fresh "h" in
  destruct sys as [s h]; destruct_self s; destruct h as [? ?].

(** Case analysis on the tests of the loop body. *)
Ltac step_cases :=
  repeat match goal with
  | |- context [Nat.eqb ?x ?x] => rewrite (Nat.eqb_refl x); run
  | E : ?b = _ |- context [if ?b then _ else _] => rewrite E; run
  | |- context [if ?b then _ else _] =>
      lazymatch b with
      | context [if _ then _ else _] => fail
      | _ => let E := fresh "E" in destruct b eqn:E; run
      end
  end.

(** * Properties *)

Section Theory.
Context `{MPNum} `{!StarTMPBase}.

Lemma touched_id (s : StarTPMPS) : touched (psi_t s) (pmps_compression_step s) s = s.
Proof. destruct s as [[? ? ? ? ?] ? ? ? ? ? ? ? ? ?]. reflexivity. Qed.

Lemma trotter_step_frame overlap last start_at mpo sys :
  exists ov' n' h' t,
    trotter_step (overlap, last) (start_at, mpo) sys
    = (Ok (ov', start_at),
       {| self := touched (next (store sys)) n' (self sys); store := h' |}, t)
    /\ (ov' = overlap \/ exists a kw, ov' = (overlap * snd (mpa_compress a kw))%Q).
Proof.
  destruct_sys sys. unfold trotter_step. run. step_cases.
  all: do 4 eexists; split; [reflexivity|]; eauto.
Qed.

Lemma unit_interval_mult (x y : Q) :
  (0 < x /\ x <= 1)%Q -> (0 < y /\ y <= 1)%Q -> (0 < x * y /\ x * y <= 1)%Q.
Proof.
  intros [Hx0 Hx1] [Hy0 Hy1]. split.
  - apply Qmult_lt_0_compat; assumption.
  - apply Qle_trans with (1 * y)%Q.
    + apply Qmult_le_compat_r; [assumption | apply Qlt_le_weak; assumption].
    + rewrite Qmult_1_l. assumption.
Qed.

Lemma trotter_loop_frame steps : forall overlap last sys,
  exists ov' last' p' n' h' t,
    for_each steps trotter_step (overlap, last) sys
    = (Ok (ov', last'), {| self := touched p' n' (self sys); store := h' |}, t)
    /\ (overlaps_in_unit_interval ->
        (0 < overlap /\ overlap <= 1)%Q -> (0 < ov' /\ ov' <= 1)%Q).
Proof.
  induction steps as [|[start_at mpo] steps IH]; intros overlap last sys.
  - exists overlap, last, (psi_t (self sys)), (pmps_compression_step (self sys)),
      (store sys), [].
    rewrite touched_id. destruct sys; split; [reflexivity | auto].
  - destruct (trotter_step_frame overlap last start_at mpo sys)
      as (ov1 & n1 & h1 & t1 & Hstep & Hov1).
    destruct (IH ov1 start_at
                {| self := touched (next (store sys)) n1 (self sys); store := h1 |})
      as (ov2 & last2 & p2 & n2 & h2 & t2 & Hloop & Hov2).
    exists ov2, last2, p2, n2, h2, (t1 ++ t2).
    split.
    + cbn [for_each]. unfold bind at 1. rewrite Hstep, Hloop. reflexivity.
    + intros Hfid Hov. apply Hov2; [assumption|].
      destruct Hov1 as [-> | (a & kw & ->)]; [assumption|].
      apply unit_interval_mult; [assumption | apply Hfid].
Qed.

Lemma evolve_run sys :
  exists ov p' n' h' t,
    evolve sys
    = (Ok tt,
       {| self :=
            set_stepno (stepno (self sys) + 1)%Z
              (set_trotter_error
                 (trotter_error (self sys)
                  + Propagator.step_trotter_error (propagator (self sys)))%Q
                 (set_last_overlap ov
                    (set_cumulative_overlap (cumulative_overlap (self sys) * ov)%Q
                       (touched p' n' (self sys)))));
          store := h' |}, t)
    /\ (overlaps_in_unit_interval ->
        (0 < base_overlap (self sys) /\ base_overlap (self sys) <= 1)%Q ->
        (0 < ov /\ ov <= 1)%Q).
Proof.
  destruct_sys sys. unfold evolve. run. step_cases.
  all: match goal with
       | |- context [for_each ?l trotter_step (?o, ?la) ?s] =>
           destruct (trotter_loop_frame l o la s)
             as (ov1 & last1 & p1 & n1 & h1 & t1 & Hloop & Hov1);
           rewrite Hloop; clear Hloop
       end.
  all: run; step_cases.
  all: do 5 eexists; split; [reflexivity|].
  all: intros Hfid; run; intros Hbase; specialize (Hov1 Hfid Hbase).
  all: try assumption.
  all: apply unit_interval_mult; [assumption | apply Hfid].
Qed.

(** ** The compression policy of one iteration *)

(** C1 (as amended).  After the contraction at an offset, the policy is chosen
    by the setting [full_compression].  When it is set, the whole chain is
    compressed with the state compression keywords, and the overlap of the
    step multiplied by the overlap returned, exactly when the offset is 0 or
    L-2 and differs from the offset of the previous iteration; no local
    compression is made.  When it is not set, a local compression at the
    offset is made exactly when the operator spans more than one site; the
    chain is not compressed as a whole and the overlap of the step is kept. *)
Theorem trotter_step_compression_policy overlap last start_at mpo sys :
  let s := self sys in
  let turn := sweep_turn (Propagator.L (propagator s)) start_at last in
  let psi' := next (store sys) in
  let contracted :=
    mp_partialdot mpo (cell (store sys) (psi_t s)) start_at (axes s) in
  exists n' h' t,
    trotter_step (overlap, last) (start_at, mpo) sys
    = (Ok (if full_compression s && turn
           then (overlap
                 * snd (mpa_compress contracted (state_compression_kwargs s)))%Q
           else overlap, start_at),
       {| self := touched psi' n' s; store := h' |},
       CallPartialdot (psi_t s) start_at psi' :: t)
    /\ filter is_full_compress t
       = (if full_compression s && turn
          then [CallCompress psi' (state_compression_kwargs s)] else [])
    /\ filter is_local_compress t
       = (if negb (full_compression s) && (1 <? mpo_len mpo)%nat
          then [CallLcCompress psi' start_at] else []).
Proof.
  destruct_sys sys. unfold trotter_step. run. rewrite ?Nat.eqb_refl.
  step_cases.
  all: do 3 eexists; split; [reflexivity | split; reflexivity].
Qed.

(** C2 (as amended).  At an offset that is 0 or L-2 and differs from the
    offset of the previous iteration, the cadence counter
    [pmps_compression_step] is advanced by one; when the advanced counter
    minus one equals the period [compress_sites_step], [compress_pmps_sites]
    is run on the chain and the counter is set back to 1, the value it has
    after construction.  At any other offset the counter is kept and
    [compress_pmps_sites] is not run. *)
Theorem trotter_step_cadence overlap last start_at mpo sys :
  let s := self sys in
  let turn := sweep_turn (Propagator.L (propagator s)) start_at last in
  let psi' := next (store sys) in
  let n := pmps_compression_step s in
  let due := eq_period ((n + 1) - 1)%Z (compress_sites_step s) in
  exists ov' h' t,
    trotter_step (overlap, last) (start_at, mpo) sys
    = (Ok (ov', start_at),
       {| self := touched psi'
                    (if turn then (if due then 1 else n + 1) else n)%Z s;
          store := h' |}, t)
    /\ filter is_compress_sites t
       = (if turn && due then [CallCompressPmpsSites psi'] else []).
Proof.
  destruct_sys sys. unfold trotter_step. run. step_cases.
  all: do 3 eexists; split; reflexivity.
Qed.

(** ** Normalization *)

(** C9.  [_normalize_state] and [normalize_state] are the same operation: on
    every state both divide the chain, in place, by its norm, and leave the
    same object and the same store. *)
Theorem normalize_state_agree sys :
  _normalize_state sys = normalize_state sys
  /\ normalize_state sys
     = (Ok tt,
        {| self := self sys;
           store := write (store sys) (psi_t (self sys))
                      (mpa_itruediv (cell (store sys) (psi_t (self sys)))
                         (mp_norm (cell (store sys) (psi_t (self sys))))) |},
        [CallItruediv (psi_t (self sys))]).
Proof.
  split; [reflexivity|]. destruct_sys sys. reflexivity.
Qed.

(** ** Reset *)

(** The chain [reset] leaves at the location of a new initial state: the
    prepared chain, divided by its norm only when the new state is the very
    object the orchestrator already holds. *)
Lemma reset_new_state_run p sck p0ck sys :
  let s := self sys in
  let h := store sys in
  let prepared :=
    match p0ck with
    | None => cform_canonicalize (cell h p) (to_cform s)
    | Some kw => pmps_compress (cell h p) (to_cform s) kw
    end in
  let h1 := write h p prepared in
  let h2 := write h1 (psi_t s)
              (mpa_itruediv (cell h1 (psi_t s)) (mp_norm (cell h1 (psi_t s)))) in
  let fits := shape_compatible (propagator s) (cell h2 p) in
  let s1 :=
    set_stepno 0%Z
      (set_trotter_error 0
         (set_base_overlap 1
            (set_cumulative_overlap 1
               (set_last_overlap 1 (set_pmps_compression_step 0%Z s))))) in
  reset (Some p) sck p0ck sys
  = (if fits then Ok tt else Raise ShapeMismatch,
     {| self :=
          if fits then
            match sck with
            | Some kw =>
                set_settings (derive_settings (propagator s) (Some kw))
                  (set_psi_t p s1)
            | None => set_psi_t p s1
            end
          else s1;
        store := h2 |},
     [match p0ck with
      | None => CallCanonicalizeTo p
      | Some kw => CallCompressPmps p kw
      end; CallItruediv (psi_t s)]).
Proof.
  destruct_sys sys. unfold reset. destruct p0ck, sck; run; step_cases; reflexivity.
Qed.

(** C5.  [reset()] without a new initial state returns normally, makes no call
    on any chain and leaves the store, the chain the orchestrator holds, the
    step counter, the three overlaps, the Trotter error and the cadence
    counter as they were. *)
Theorem reset_without_state_keeps_counters sck p0ck sys :
  exists s',
    reset None sck p0ck sys = (Ok tt, {| self := s'; store := store sys |}, [])
    /\ psi_t s' = psi_t (self sys)
    /\ stepno s' = stepno (self sys)
    /\ cumulative_overlap s' = cumulative_overlap (self sys)
    /\ last_overlap s' = last_overlap (self sys)
    /\ base_overlap s' = base_overlap (self sys)
    /\ trotter_error s' = trotter_error (self sys)
    /\ pmps_compression_step s' = pmps_compression_step (self sys).
Proof.
  destruct_sys sys. unfold reset.
  destruct sck; run; eexists; repeat split; reflexivity.
Qed.

(** C4 (the code on it).  [reset()] with a new initial state sets the step
    counter to 0, the three overlaps to 1 and the Trotter error to 0, whatever
    came before and whether or not the base class accepts the state; but it
    sets the cadence counter to 0, while construction sets it to 1. *)
Theorem reset_cadence_counter_is_zero p sck p0ck sys :
  (exists r sys' t,
     reset (Some p) sck p0ck sys = (r, sys', t)
     /\ stepno (self sys') = 0%Z
     /\ cumulative_overlap (self sys') = 1
     /\ last_overlap (self sys') = 1
     /\ base_overlap (self sys') = 1
     /\ trotter_error (self sys') = 0
     /\ pmps_compression_step (self sys') = 0%Z)
  /\ (forall psi_0 pr kw t0 kw0 h,
        match __init__ psi_0 pr kw t0 kw0 h with
        | (Ok s, _, _) => pmps_compression_step s = 1%Z
        | (Raise _, _, _) => True
        end).
Proof.
  split.
  - do 3 eexists. split; [apply reset_new_state_run|].
    destruct_sys sys. run. step_cases; destruct sck; repeat split; reflexivity.
  - intros psi_0 pr kw t0 kw0 [c n]. unfold __init__, StarTMPBase_init.
    destruct kw0; run; step_cases; exact I || reflexivity.
Qed.


(** ** Construction *)

Lemma init_counters psi_0 pr kw t0 kw0 h s h' t :
  __init__ psi_0 pr kw t0 kw0 h = (Ok s, h', t) ->
  stepno s = 0%Z /\ trotter_error s = 0 /\ cumulative_overlap s = 1
  /\ last_overlap s = 1 /\ base_overlap s = 1 /\ propagator s = pr.
Proof.
  destruct h as [c n]. unfold __init__, StarTMPBase_init.
  destruct kw0; run; step_cases; intros Heq; inversion Heq; subst;
    repeat split; reflexivity.
Qed.

(** C8.  When the base class accepts the chain, construction raises if and
    only if the propagator was built without ancilla sites or in adjoint
    mode.  The error is the one of the failed assertion, it is raised before
    the chain is touched, and no orchestrator is returned; with both
    preconditions met an orchestrator is returned. *)
Theorem init_precondition_checks psi_0 pr kw t0 kw0 h :
  shape_compatible pr (cell h psi_0) = true ->
  ((exists e h' t, __init__ psi_0 pr kw t0 kw0 h = (Raise e, h', t))
   <-> (Propagator.ancilla_sites pr = false \/ Propagator.build_adj pr = true))
  /\ (Propagator.ancilla_sites pr = false ->
      __init__ psi_0 pr kw t0 kw0 h = (Raise AssertAncillaSites, h, []))
  /\ (Propagator.ancilla_sites pr = true -> Propagator.build_adj pr = true ->
      __init__ psi_0 pr kw t0 kw0 h = (Raise AssertNotBuildAdj, h, []))
  /\ (Propagator.ancilla_sites pr = true -> Propagator.build_adj pr = false ->
      exists s h' t, __init__ psi_0 pr kw t0 kw0 h = (Ok s, h', t)).
Proof.
  intros Hfits.
  assert (Hanc : Propagator.ancilla_sites pr = false ->
                 __init__ psi_0 pr kw t0 kw0 h = (Raise AssertAncillaSites, h, [])).
  { intros Ha. destruct h as [c n], pr as [L0 si anc adj cf steps e0].
    run in Ha. run in Hfits. subst anc.
    unfold __init__, StarTMPBase_init. run. rewrite Hfits. reflexivity. }
  assert (Hadj : Propagator.ancilla_sites pr = true ->
                 Propagator.build_adj pr = true ->
                 __init__ psi_0 pr kw t0 kw0 h = (Raise AssertNotBuildAdj, h, [])).
  { intros Ha Hb. destruct h as [c n], pr as [L0 si anc adj cf steps e0].
    run in Ha. run in Hb. run in Hfits. subst anc adj.
    unfold __init__, StarTMPBase_init. run. rewrite Hfits. reflexivity. }
  assert (Hok : Propagator.ancilla_sites pr = true ->
                Propagator.build_adj pr = false ->
                exists s h' t, __init__ psi_0 pr kw t0 kw0 h = (Ok s, h', t)).
  { intros Ha Hb. destruct h as [c n], pr as [L0 si anc adj cf steps e0].
    run in Ha. run in Hb. run in Hfits. subst anc adj.
    unfold __init__, StarTMPBase_init. run. rewrite Hfits.
    destruct kw0; do 3 eexists; reflexivity. }
  repeat split; try assumption.
  - intros (e & h' & t & Hraise).
    destruct (Propagator.ancilla_sites pr) eqn:Ea; [right | left; reflexivity].
    destruct (Propagator.build_adj pr) eqn:Eb; [reflexivity|].
    destruct (Hok eq_refl eq_refl) as (s & h1 & t1 & Heq).
    rewrite Heq in Hraise. discriminate Hraise.
  - intros [Ha | Hb].
    + do 3 eexists. apply Hanc, Ha.
    + destruct (Propagator.ancilla_sites pr) eqn:Ea.
      * do 3 eexists. apply Hadj; [reflexivity | exact Hb].
      * do 3 eexists. apply Hanc. reflexivity.
Qed.

(** ** Sequences of steps *)

Lemma evolve_counters sys :
  exists sys' t,
    evolve sys = (Ok tt, sys', t)
    /\ stepno (self sys') = (stepno (self sys) + 1)%Z
    /\ trotter_error (self sys')
       = (trotter_error (self sys)
          + Propagator.step_trotter_error (propagator (self sys)))%Q
    /\ propagator (self sys') = propagator (self sys)
    /\ base_overlap (self sys') = base_overlap (self sys)
    /\ exists ov,
         cumulative_overlap (self sys') = (cumulative_overlap (self sys) * ov)%Q
         /\ last_overlap (self sys') = ov
         /\ (overlaps_in_unit_interval ->
             (0 < base_overlap (self sys) /\ base_overlap (self sys) <= 1)%Q ->
             (0 < ov /\ ov <= 1)%Q).
Proof.
  destruct (evolve_run sys) as (ov & p' & n' & h' & t & Hrun & Hov).
  do 2 eexists. split; [exact Hrun|].
  clear Hrun. destruct_sys sys.
  repeat split. exists ov. repeat split; apply Hov; assumption.
Qed.

Lemma evolve_n_run N : forall sys,
  exists sys' t,
    evolve_n N sys = (Ok tt, sys', t)
    /\ stepno (self sys') = (stepno (self sys) + Z.of_nat N)%Z
    /\ (trotter_error (self sys')
        == trotter_error (self sys)
           + inject_Z (Z.of_nat N)
             * Propagator.step_trotter_error (propagator (self sys)))%Q
    /\ propagator (self sys') = propagator (self sys)
    /\ base_overlap (self sys') = base_overlap (self sys)
    /\ (overlaps_in_unit_interval ->
        (0 < base_overlap (self sys) /\ base_overlap (self sys) <= 1)%Q ->
        (0 < cumulative_overlap (self sys)
         /\ cumulative_overlap (self sys) <= 1)%Q ->
        (0 < cumulative_overlap (self sys')
         /\ cumulative_overlap (self sys') <= 1)%Q).
Proof.
  induction N as [|N IH]; intros sys.
  - exists sys, []. cbn [evolve_n]. unfold ret.
    repeat split; try tauto.
    + cbn. lia.
    + cbn [Z.of_nat]. change (inject_Z 0) with 0%Q. ring.
  - destruct (evolve_counters sys)
      as (sys1 & t1 & Hrun & Hstep & Herr & Hpr & Hbase & ov & Hcum & _ & Hov).
    destruct (IH sys1) as (sys2 & t2 & Hrun2 & Hstep2 & Herr2 & Hpr2 & Hbase2 & Hcum2).
    exists sys2, (t1 ++ t2).
    split; [cbn [evolve_n]; unfold bind; rewrite Hrun, Hrun2; reflexivity|].
    split; [rewrite Hstep2, Hstep; lia|].
    split.
    { rewrite Herr2, Herr, Hpr, Nat2Z.inj_succ. unfold Z.succ.
      rewrite inject_Z_plus. change (inject_Z 1) with 1%Q. ring. }
    split; [congruence|].
    split; [congruence|].
    intros Hfid Hb Hc. apply Hcum2; [assumption | rewrite Hbase; assumption |].
    rewrite Hcum. apply unit_interval_mult; auto.
Qed.

Lemma evolve_n_error_sum N : forall sys,
  exists sys' t,
    evolve_n N sys = (Ok tt, sys', t)
    /\ trotter_error (self sys')
       = accumulated Qplus (trotter_error (self sys))
           (repeat (Propagator.step_trotter_error (propagator (self sys))) N).
Proof.
  induction N as [|N IH]; intros sys.
  - exists sys, []. split; reflexivity.
  - destruct (evolve_counters sys)
      as (sys1 & t1 & Hrun & _ & Herr & Hpr & _).
    destruct (IH sys1) as (sys2 & t2 & Hrun2 & Herr2).
    exists sys2, (t1 ++ t2).
    split; [cbn [evolve_n]; unfold bind; rewrite Hrun, Hrun2; reflexivity|].
    rewrite Herr2, Herr, Hpr. reflexivity.
Qed.

(** C6 (as amended).  On an orchestrator just constructed, [N] calls of
    [evolve()] all return; afterwards the step counter is [N] and the
    accumulated Trotter error is the running sum 0 + e + ... + e of [N]
    estimates of the propagator, added one after the other; in exact
    arithmetic that sum is [N] times the estimate; and when the estimate is
    not negative, one more call does not decrease the accumulated error. *)
Theorem evolve_n_step_counter_and_error psi_0 pr kw t0 kw0 h s h0 t0' N :
  __init__ psi_0 pr kw t0 kw0 h = (Ok s, h0, t0') ->
  exists sysN tN sysN1 tN1,
    evolve_n N {| self := s; store := h0 |} = (Ok tt, sysN, tN)
    /\ evolve sysN = (Ok tt, sysN1, tN1)
    /\ stepno (self sysN) = Z.of_nat N
    /\ trotter_error (self sysN)
       = accumulated Qplus 0 (repeat (Propagator.step_trotter_error pr) N)
    /\ (trotter_error (self sysN)
        == inject_Z (Z.of_nat N) * Propagator.step_trotter_error pr)%Q
    /\ stepno (self sysN1) = Z.of_nat (S N)
    /\ trotter_error (self sysN1)
       = (trotter_error (self sysN) + Propagator.step_trotter_error pr)%Q
    /\ ((0 <= Propagator.step_trotter_error pr)%Q ->
        (trotter_error (self sysN) <= trotter_error (self sysN1))%Q).
Proof.
  intros Hinit.
  destruct (init_counters _ _ _ _ _ _ Hinit) as (Hs0 & He0 & _ & _ & _ & Hpr0).
  destruct (evolve_n_run N {| self := s; store := h0 |})
    as (sysN & tN & HrunN & HstepN & HerrN & HprN & _).
  destruct (evolve_n_error_sum N {| self := s; store := h0 |})
    as (sysN' & tN' & HrunN' & HsumN).
  rewrite HrunN in HrunN'. injection HrunN' as <- <-.
  destruct (evolve_counters sysN)
    as (sysN1 & tN1 & Hrun1 & Hstep1 & Herr1 & _).
  cbn [self] in HstepN, HerrN, HprN, HsumN.
  rewrite Hs0 in HstepN. rewrite He0, Hpr0 in HerrN, HsumN.
  rewrite HprN, Hpr0 in Herr1.
  exists sysN, tN, sysN1, tN1.
  split; [exact HrunN|]. split; [exact Hrun1|].
  split; [lia|].
  split; [exact HsumN|].
  split; [rewrite HerrN; ring|].
  split; [lia|].
  split; [exact Herr1|].
  intros Hpos. rewrite Herr1. lra.
Qed.

End Theory.

(** * Sweeps, stores and the cadence *)

Section SweepTheory.
Context `{MPNum} `{!StarTMPBase}.

(** The attributes the loop does not assign to, read after it. *)
Lemma touched_touched p1 n1 p2 n2 s :
  touched p2 n2 (touched p1 n1 s) = touched p2 n2 s.
Proof. reflexivity. Qed.

Lemma psi_t_touched p n s : psi_t (touched p n s) = p.
Proof. reflexivity. Qed.

Lemma pmps_compression_step_touched p n s :
  pmps_compression_step (touched p n s) = n.
Proof. reflexivity. Qed.

Lemma propagator_touched p n s : propagator (touched p n s) = propagator s.
Proof. reflexivity. Qed.

Lemma full_compression_touched p n s :
  full_compression (touched p n s) = full_compression s.
Proof. reflexivity. Qed.

Lemma compress_sites_step_touched p n s :
  compress_sites_step (touched p n s) = compress_sites_step s.
Proof. reflexivity. Qed.

Lemma sweep_turn_same_offset L o : sweep_turn L o o = false.
Proof. unfold sweep_turn. rewrite Z.eqb_refl. apply andb_false_r. Qed.

(** One iteration of the loop: what it returns, allocates, writes and calls. *)
Lemma trotter_step_effect overlap last start_at mpo sys :
  let s := self sys in
  let h := store sys in
  let turn := sweep_turn (Propagator.L (propagator s)) start_at last in
  let n := pmps_compression_step s in
  let due := eq_period (n + 1 - 1)%Z (compress_sites_step s) in
  exists ov' h' t,
    trotter_step (overlap, last) (start_at, mpo) sys
    = (Ok (ov', start_at),
       {| self := touched (next h)
                    (if turn then (if due then 1 else n + 1) else n)%Z s;
          store := h' |},
       CallPartialdot (psi_t s) start_at (next h) :: t)
    /\ next h' = S (next h)
    /\ (forall l, l <> next h -> cell h' l = cell h l)
    /\ contraction_offsets t = []
    /\ filter is_compress_sites t
       = (if turn && due then [CallCompressPmpsSites (next h)] else [])
    /\ (full_compression s = false ->
        ov' = overlap /\ filter is_full_compress t = [])
    /\ (turn = false -> ov' = overlap /\ filter is_full_compress t = [])
    /\ List.length (filter is_full_compress t)
       = (if full_compression s && turn then 1 else 0)%nat
    /\ List.length (filter is_local_compress t)
       = (if negb (full_compression s) && (1 <? mpo_len mpo)%nat
          then 1 else 0)%nat.
Proof.
  destruct_sys sys. unfold trotter_step. run. step_cases.
  all: do 3 eexists; split; [reflexivity|].
  all: split; [reflexivity|].
  all: split;
    [intros l Hl; apply Nat.eqb_neq in Hl; run; rewrite ?Hl; reflexivity|].
  all: repeat split; try reflexivity; intros; discriminate.
Qed.

Lemma eq_period_none n : eq_period n None = false.
Proof. reflexivity. Qed.

(** The loop of [evolve]: one array is allocated per step and nothing that
    existed before is written; the contractions are those of the steps; the
    cadence counter moves as the sweep turns tell. *)
Lemma trotter_loop_effect steps : forall overlap last sys,
  exists ov' last' p' n' h' t,
    for_each steps trotter_step (overlap, last) sys
    = (Ok (ov', last'), {| self := touched p' n' (self sys); store := h' |}, t)
    /\ next h' = (next (store sys) + List.length steps)%nat
    /\ p' = match steps with
            | [] => psi_t (self sys)
            | _ :: _ => (next (store sys) + List.length steps - 1)%nat
            end
    /\ (forall l, (l < next (store sys))%nat -> cell h' l = cell (store sys) l)
    /\ contraction_offsets t = map fst steps
    /\ (full_compression (self sys) = false ->
        ov' = overlap /\ filter is_full_compress t = [])
    /\ (match compress_sites_step (self sys) with
        | None => True
        | Some p => (p < pmps_compression_step (self sys))%Z
        end ->
        filter is_compress_sites t = []
        /\ n' = (pmps_compression_step (self sys)
                 + count_turns (Propagator.L (propagator (self sys))) last steps)%Z)
    /\ (forall p, compress_sites_step (self sys) = Some p ->
        (1 <= p)%Z ->
        (0 <= pmps_compression_step (self sys) <= p)%Z ->
        (Z.min (pmps_compression_step (self sys)) 1 <= n' <= p)%Z)
    /\ Z.of_nat (List.length (filter is_full_compress t))
       = (if full_compression (self sys)
          then count_turns (Propagator.L (propagator (self sys))) last steps
          else 0)%Z
    /\ List.length (filter is_local_compress t)
       = (if full_compression (self sys) then 0
          else List.length
                 (filter (fun st => (1 <? mpo_len (snd st))%nat) steps))%nat.
Proof.
  induction steps as [|[start_at mpo] steps IH]; intros overlap last sys.
  - exists overlap, last, (psi_t (self sys)), (pmps_compression_step (self sys)),
      (store sys), [].
    rewrite touched_id. cbn [for_each List.length count_turns map].
    destruct sys as [s h]. cbn [self store]. unfold ret.
    repeat split; try reflexivity; try lia.
    all: destruct (full_compression s); reflexivity.
  - destruct (trotter_step_effect overlap last start_at mpo sys)
      as (ov1 & h1 & t1 & Hstep & Hnext1 & Hframe1 & Hoff1 & Hsites1 & Hfc1 & _
          & Hnfull1 & Hnlocal1).
    cbv zeta in Hstep, Hsites1, Hfc1, Hnfull1, Hnlocal1.
    remember (sweep_turn (Propagator.L (propagator (self sys))) start_at last)
      as turn eqn:Eturn.
    remember (pmps_compression_step (self sys)) as n eqn:En.
    remember (eq_period (n + 1 - 1)%Z (compress_sites_step (self sys)))
      as due eqn:Edue.
    remember (if turn then (if due then 1 else n + 1) else n)%Z as n1 eqn:En1.
    destruct (IH ov1 start_at
                {| self := touched (next (store sys)) n1 (self sys); store := h1 |})
      as (ov2 & last2 & p2 & n2 & h2 & t2 & Hloop & Hnext2 & Hp2 & Hframe2
          & Hoff2 & Hfc2 & Hnever2 & Hinv2 & Hnfull2 & Hnlocal2).
    cbn [self store] in Hloop, Hnext2, Hp2, Hframe2, Hfc2, Hnever2, Hinv2,
      Hnfull2, Hnlocal2.
    rewrite full_compression_touched in Hnfull2, Hnlocal2.
    rewrite propagator_touched in Hnfull2.
    rewrite touched_touched in Hloop.
    rewrite psi_t_touched in Hp2.
    rewrite full_compression_touched in Hfc2.
    rewrite compress_sites_step_touched, pmps_compression_step_touched,
      propagator_touched in Hnever2.
    rewrite compress_sites_step_touched, pmps_compression_step_touched in Hinv2.
    exists ov2, last2, p2, n2, h2, (CallPartialdot (psi_t (self sys)) start_at
                                      (next (store sys)) :: t1 ++ t2).
    split; [cbn [for_each]; unfold bind at 1; rewrite Hstep, Hloop; reflexivity|].
    split; [cbn [List.length]; lia|].
    split.
    { rewrite Hp2, Hnext1. cbn [List.length].
      destruct steps; cbn [List.length]; lia. }
    split.
    { intros l Hl. rewrite Hframe2 by lia. apply Hframe1. lia. }
    split.
    { unfold contraction_offsets in *. cbn [flat_map map fst app].
      rewrite flat_map_app, Hoff1, Hoff2. reflexivity. }
    split.
    { intros Hfc. destruct (Hfc1 Hfc) as [-> Hc1]. destruct (Hfc2 Hfc) as [-> Hc2].
      split; [reflexivity|]. cbn [filter is_full_compress].
      rewrite filter_app, Hc1, Hc2. reflexivity. }
    split.
    { intros Hnever. cbn [filter is_compress_sites count_turns].
      rewrite <- Eturn, filter_app, Hsites1.
      assert (Hdue : due = false).
      { rewrite Edue. destruct (compress_sites_step (self sys)) as [p|];
          [|reflexivity]. cbn [eq_period]. apply Z.eqb_neq. lia. }
      rewrite Hdue in *. rewrite andb_false_r.
      assert (Hn1 : n1 = (n + (if turn then 1 else 0))%Z)
        by (rewrite En1; destruct turn; lia).
      destruct Hnever2 as [Hs2 Hn2].
      { destruct (compress_sites_step (self sys)) as [p|]; [|exact I].
        destruct turn; lia. }
      rewrite Hs2, Hn2. split; [reflexivity | destruct turn; lia]. }
    split.
    { intros p Hp Hp1 Hrange.
      assert (Hn1 : (Z.min n 1 <= n1 <= p)%Z).
      { rewrite En1, Edue, Hp. cbn [eq_period].
        destruct turn; [|lia].
        destruct (Z.eqb_spec (n + 1 - 1) p); lia. }
      specialize (Hinv2 p Hp Hp1). lia. }
    split.
    { cbn [filter is_full_compress count_turns]. rewrite <- Eturn.
      rewrite filter_app, length_app, Nat2Z.inj_add, Hnfull1, Hnfull2.
      destruct (full_compression (self sys)), turn; cbn [andb]; lia. }
    cbn [filter is_local_compress snd]. rewrite filter_app, length_app.
    rewrite Hnlocal1, Hnlocal2.
    destruct (full_compression (self sys)); [reflexivity|]. cbn [negb andb].
    destruct (1 <? mpo_len mpo)%nat; reflexivity.
Qed.

(** [evolve] around its loop: the canonicalization before it, the final
    compression or canonicalization after it, the normalization and the
    bookkeeping. *)
Lemma evolve_unfold sys ov1 last1 p1 n1 h1 t1 :
  let s := self sys in
  let ces := canonicalize_every_step s in
  let fin := final_compression s in
  let kw := state_compression_kwargs s in
  for_each (Propagator.trotter_steps (propagator s)) trotter_step
    (base_overlap s, system_index s)
    {| self := s; store := store_before_loop sys |}
  = (Ok (ov1, last1), {| self := touched p1 n1 s; store := h1 |}, t1) ->
  let c1 := cell h1 p1 in
  let c2 := if fin then fst (mpa_compress c1 kw)
            else if ces then c1 else cform_canonicalize c1 (to_cform s) in
  let h2 := if fin then write h1 p1 c2
            else if ces then h1 else write h1 p1 c2 in
  let ov := if fin then (ov1 * snd (mpa_compress c1 kw))%Q else ov1 in
  evolve sys
  = (Ok tt,
     {| self :=
          set_stepno (stepno s + 1)%Z
            (set_trotter_error
               (trotter_error s + Propagator.step_trotter_error (propagator s))%Q
               (set_last_overlap ov
                  (set_cumulative_overlap (cumulative_overlap s * ov)%Q
                     (touched p1 (if (system_index s =? 0)%Z then n1 - 1 else n1)%Z
                        s))));
        store := write h2 p1 (mpa_itruediv c2 (mp_norm c2)) |},
     (if ces then [] else [CallCanonicalizeTo (psi_t s)])
     ++ t1
     ++ (if fin then [CallCompress p1 kw]
         else if ces then [] else [CallCanonicalizeTo p1])
     ++ [CallItruediv p1]).
Proof.
  destruct_sys sys. unfold evolve, store_before_loop. run. step_cases.
  all: intros Hloop; rewrite Hloop; run; step_cases; reflexivity.
Qed.

Lemma cell_write_same h l a : cell (write h l a) l = a.
Proof. cbn. rewrite Nat.eqb_refl. reflexivity. Qed.

Lemma cell_write_other h l a l' : l' <> l -> cell (write h l a) l' = cell h l'.
Proof. intros Hne. cbn. apply Nat.eqb_neq in Hne. rewrite Hne. reflexivity. Qed.

Lemma next_store_before_loop sys : next (store_before_loop sys) = next (store sys).
Proof. unfold store_before_loop. destruct (canonicalize_every_step (self sys)); reflexivity. Qed.

Lemma cell_store_before_loop_other sys l :
  l <> psi_t (self sys) -> cell (store_before_loop sys) l = cell (store sys) l.
Proof.
  intros Hne. unfold store_before_loop.
  destruct (canonicalize_every_step (self sys)); [reflexivity|].
  apply cell_write_other, Hne.
Qed.

(** The store after the final compression or canonicalization and the
    normalization: only the held chain is written. *)
Lemma cell_after_loop_other (fin ces : bool) h1 p1 (c2 c3 : MPArray) l :
  l <> p1 ->
  cell (write (if fin then write h1 p1 c2
               else if ces then h1 else write h1 p1 c2) p1 c3) l
  = cell h1 l.
Proof.
  intros Hne. rewrite cell_write_other by exact Hne.
  destruct fin; [apply cell_write_other, Hne|].
  destruct ces; [reflexivity | apply cell_write_other, Hne].
Qed.

(** ** Contractions and allocation *)

(** X2.  One call of [evolve()] contracts the operators of the Trotter steps
    once each, at their offsets and in their order, and allocates exactly one
    array per step. *)
Theorem evolve_contracts_each_step_once sys :
  exists sys' t,
    evolve sys = (Ok tt, sys', t)
    /\ contraction_offsets t
       = map fst (Propagator.trotter_steps (propagator (self sys)))
    /\ next (store sys')
       = (next (store sys)
          + List.length (Propagator.trotter_steps (propagator (self sys))))%nat.
Proof.
  destruct (trotter_loop_effect
              (Propagator.trotter_steps (propagator (self sys)))
              (base_overlap (self sys)) (system_index (self sys))
              {| self := self sys; store := store_before_loop sys |})
    as (ov1 & last1 & p1 & n1 & h1 & t1 & Hloop & Hnext & _ & _ & Hoff & _).
  cbn [self store] in Hloop, Hnext.
  pose proof (evolve_unfold sys Hloop) as Hrun. cbv zeta in Hrun.
  do 2 eexists. split; [exact Hrun|]. split.
  - unfold contraction_offsets in *. rewrite !flat_map_app, Hoff.
    destruct (canonicalize_every_step (self sys)), (final_compression (self sys));
      cbn [flat_map app]; rewrite app_nil_r; reflexivity.
  - cbn [store next write]. rewrite <- next_store_before_loop.
    destruct (final_compression (self sys));
      [|destruct (canonicalize_every_step (self sys))]; exact Hnext.
Qed.

(** X3.  [evolve()] leaves every array that existed before the call and is
    not the chain the orchestrator holds as it was. *)
Theorem evolve_keeps_other_arrays sys :
  exists sys' t,
    evolve sys = (Ok tt, sys', t)
    /\ forall l, (l < next (store sys))%nat -> l <> psi_t (self sys) ->
         cell (store sys') l = cell (store sys) l.
Proof.
  destruct (trotter_loop_effect
              (Propagator.trotter_steps (propagator (self sys)))
              (base_overlap (self sys)) (system_index (self sys))
              {| self := self sys; store := store_before_loop sys |})
    as (ov1 & last1 & p1 & n1 & h1 & t1 & Hloop & _ & Hp1 & Hframe & _).
  cbn [self store] in Hloop, Hp1, Hframe.
  pose proof (evolve_unfold sys Hloop) as Hrun. cbv zeta in Hrun.
  do 2 eexists. split; [exact Hrun|].
  intros l Hl Hne. cbn [store].
  rewrite next_store_before_loop in Hp1, Hframe.
  rewrite cell_after_loop_other.
  - rewrite Hframe by exact Hl. apply cell_store_before_loop_other, Hne.
  - rewrite Hp1. destruct (Propagator.trotter_steps (propagator (self sys)));
      [exact Hne | cbn [List.length]; lia].
Qed.

(** X4.  When the sweep has at least one step and the held chain is an
    allocated array, [evolve()] ends on a new array: the array held before is
    canonicalized at most (not at all with [canonicalize_every_step]); it is
    neither contracted, compressed nor normalized in place. *)
Theorem evolve_moves_to_new_array sys :
  (psi_t (self sys) < next (store sys))%nat ->
  Propagator.trotter_steps (propagator (self sys)) <> [] ->
  exists sys' t,
    evolve sys = (Ok tt, sys', t)
    /\ (next (store sys) <= psi_t (self sys'))%nat
    /\ cell (store sys') (psi_t (self sys))
       = (if canonicalize_every_step (self sys)
          then cell (store sys) (psi_t (self sys))
          else cform_canonicalize (cell (store sys) (psi_t (self sys)))
                 (to_cform (self sys))).
Proof.
  intros Hwf Hsteps.
  destruct (trotter_loop_effect
              (Propagator.trotter_steps (propagator (self sys)))
              (base_overlap (self sys)) (system_index (self sys))
              {| self := self sys; store := store_before_loop sys |})
    as (ov1 & last1 & p1 & n1 & h1 & t1 & Hloop & _ & Hp1 & Hframe & _).
  cbn [self store] in Hloop, Hp1, Hframe.
  pose proof (evolve_unfold sys Hloop) as Hrun. cbv zeta in Hrun.
  rewrite next_store_before_loop in Hp1, Hframe.
  assert (Hfresh : (next (store sys) <= p1)%nat).
  { rewrite Hp1. destruct (Propagator.trotter_steps (propagator (self sys)));
      [congruence | cbn [List.length]; lia]. }
  do 2 eexists. split; [exact Hrun|]. split; [exact Hfresh|].
  cbn [store]. rewrite cell_after_loop_other by lia.
  rewrite Hframe by exact Hwf.
  unfold store_before_loop.
  destruct (canonicalize_every_step (self sys));
    [reflexivity | apply cell_write_same].
Qed.

(** X5.  [evolve()] ends with the normalization of the chain it holds then:
    its last call is the division in place of that chain, and the chain held
    afterwards is some chain divided by its own norm. *)
Theorem evolve_ends_with_normalization sys :
  exists sys' t0 c,
    evolve sys = (Ok tt, sys', t0 ++ [CallItruediv (psi_t (self sys'))])
    /\ held_chain sys' = mpa_itruediv c (mp_norm c).
Proof.
  destruct (trotter_loop_effect
              (Propagator.trotter_steps (propagator (self sys)))
              (base_overlap (self sys)) (system_index (self sys))
              {| self := self sys; store := store_before_loop sys |})
    as (ov1 & last1 & p1 & n1 & h1 & t1 & Hloop & _).
  cbn [self store] in Hloop.
  pose proof (evolve_unfold sys Hloop) as Hrun. cbv zeta in Hrun.
  rewrite !app_assoc in Hrun.
  do 3 eexists. split; [exact Hrun|].
  unfold held_chain. cbn [self store]. apply cell_write_same.
Qed.

Lemma pmps_step_after_commit (s : StarTPMPS) a b c d p n :
  pmps_compression_step
    (set_stepno a (set_trotter_error b
       (set_last_overlap c (set_cumulative_overlap d (touched p n s))))) = n.
Proof. reflexivity. Qed.

(** ** Overlap bookkeeping *)

(** X6.  With neither [full_compression] nor [final_compression], [evolve()]
    never compresses the chain as a whole and records no loss: the overlap of
    the step is [base_overlap], whatever the local compressions truncated. *)
Theorem evolve_local_compression_records_no_loss sys :
  full_compression (self sys) = false ->
  final_compression (self sys) = false ->
  exists sys' t,
    evolve sys = (Ok tt, sys', t)
    /\ filter is_full_compress t = []
    /\ last_overlap (self sys') = base_overlap (self sys)
    /\ cumulative_overlap (self sys')
       = (cumulative_overlap (self sys) * base_overlap (self sys))%Q.
Proof.
  intros Hfc Hfin.
  destruct (trotter_loop_effect
              (Propagator.trotter_steps (propagator (self sys)))
              (base_overlap (self sys)) (system_index (self sys))
              {| self := self sys; store := store_before_loop sys |})
    as (ov1 & last1 & p1 & n1 & h1 & t1 & Hloop & _ & _ & _ & _ & Hnofull & _).
  cbn [self store] in Hloop, Hnofull.
  destruct (Hnofull Hfc) as [Hov Hcalls].
  pose proof (evolve_unfold sys Hloop) as Hrun. cbv zeta in Hrun.
  rewrite Hfin in Hrun.
  do 2 eexists. split; [exact Hrun|]. split.
  - rewrite !filter_app, Hcalls.
    destruct (canonicalize_every_step (self sys)); reflexivity.
  - subst ov1. destruct sys as [s h]. destruct_self s. split; reflexivity.
Qed.

(** ** The cadence of the ancilla compression *)

(** X7.  Away from a system index of 0, and with a period of at least 1, a
    cadence counter between 0 and the period stays there over [evolve()], and
    one that is at least 1 stays at least 1. *)
Theorem evolve_cadence_counter_bounds sys p :
  system_index (self sys) <> 0%Z ->
  compress_sites_step (self sys) = Some p ->
  (1 <= p)%Z ->
  (0 <= pmps_compression_step (self sys) <= p)%Z ->
  exists sys' t,
    evolve sys = (Ok tt, sys', t)
    /\ (Z.min (pmps_compression_step (self sys)) 1
        <= pmps_compression_step (self sys') <= p)%Z.
Proof.
  intros Hsi Hper Hp Hrange.
  destruct (trotter_loop_effect
              (Propagator.trotter_steps (propagator (self sys)))
              (base_overlap (self sys)) (system_index (self sys))
              {| self := self sys; store := store_before_loop sys |})
    as (ov1 & last1 & p1 & n1 & h1 & t1 & Hloop & _ & _ & _ & _ & _ & _ & Hinv & _).
  cbn [self store] in Hloop, Hinv.
  specialize (Hinv p Hper Hp Hrange).
  pose proof (evolve_unfold sys Hloop) as Hrun. cbv zeta in Hrun.
  apply Z.eqb_neq in Hsi. rewrite Hsi in Hrun.
  do 2 eexists. split; [exact Hrun|].
  cbn [self]. exact Hinv.
Qed.

(** X8.  Without a period, or once the cadence counter exceeds the period,
    [evolve()] never runs [compress_pmps_sites]: the counter only counts the
    sweep turns (less one when the system index is 0) and is not set back. *)
Theorem evolve_never_compresses_sites sys :
  match compress_sites_step (self sys) with
  | None => True
  | Some p => (p < pmps_compression_step (self sys))%Z
  end ->
  exists sys' t,
    evolve sys = (Ok tt, sys', t)
    /\ filter is_compress_sites t = []
    /\ pmps_compression_step (self sys')
       = (pmps_compression_step (self sys)
          + count_turns (Propagator.L (propagator (self sys)))
              (system_index (self sys))
              (Propagator.trotter_steps (propagator (self sys)))
          - (if (system_index (self sys) =? 0)%Z then 1 else 0))%Z.
Proof.
  intros Hnever.
  destruct (trotter_loop_effect
              (Propagator.trotter_steps (propagator (self sys)))
              (base_overlap (self sys)) (system_index (self sys))
              {| self := self sys; store := store_before_loop sys |})
    as (ov1 & last1 & p1 & n1 & h1 & t1 & Hloop & _ & _ & _ & _ & _ & Hcount & _).
  cbn [self store] in Hloop, Hcount.
  destruct (Hcount Hnever) as [Hcalls Hn1].
  pose proof (evolve_unfold sys Hloop) as Hrun. cbv zeta in Hrun.
  do 2 eexists. split; [exact Hrun|]. split.
  - rewrite !filter_app, Hcalls.
    destruct (canonicalize_every_step (self sys)), (final_compression (self sys));
      reflexivity.
  - cbn [self]. rewrite pmps_step_after_commit, Hn1.
    destruct (system_index (self sys) =? 0)%Z; lia.
Qed.

(** X9.  A step at the offset of the step before it is no sweep turn, whatever
    the offset: the chain is not compressed as a whole, the overlap of the
    step and the cadence counter are kept and [compress_pmps_sites] is not
    run. *)
Theorem trotter_step_same_offset overlap o mpo sys :
  exists h' t,
    trotter_step (overlap, o) (o, mpo) sys
    = (Ok (overlap, o),
       {| self := touched (next (store sys))
                    (pmps_compression_step (self sys)) (self sys);
          store := h' |}, t)
    /\ filter is_full_compress t = []
    /\ filter is_compress_sites t = [].
Proof.
  destruct (trotter_step_effect overlap o o mpo sys)
    as (ov' & h' & t & Hstep & _ & _ & _ & Hsites & _ & Hturn & _).
  cbv zeta in Hstep, Hsites, Hturn.
  rewrite sweep_turn_same_offset in Hstep, Hsites, Hturn.
  destruct (Hturn eq_refl) as [-> Hfull].
  do 2 eexists. split; [exact Hstep|].
  split; [|exact Hsites].
  cbn [filter is_full_compress]. exact Hfull.
Qed.

(** ** How often the chain is compressed *)

(** X12.  With [full_compression], [evolve()] compresses the chain as a whole
    once per sweep turn of the steps, counted from the system index, and once
    more at the end with [final_compression]; it makes no local
    compression. *)
Theorem evolve_full_compression_count sys :
  full_compression (self sys) = true ->
  exists sys' t,
    evolve sys = (Ok tt, sys', t)
    /\ Z.of_nat (List.length (filter is_full_compress t))
       = (count_turns (Propagator.L (propagator (self sys)))
            (system_index (self sys))
            (Propagator.trotter_steps (propagator (self sys)))
          + (if final_compression (self sys) then 1 else 0))%Z
    /\ filter is_local_compress t = [].
Proof.
  intros Hfc.
  destruct (trotter_loop_effect
              (Propagator.trotter_steps (propagator (self sys)))
              (base_overlap (self sys)) (system_index (self sys))
              {| self := self sys; store := store_before_loop sys |})
    as (ov1 & last1 & p1 & n1 & h1 & t1 & Hloop & _ & _ & _ & _ & _ & _ & _
        & Hnfull & Hnlocal).
  cbn [self store] in Hloop, Hnfull, Hnlocal.
  rewrite Hfc in Hnfull, Hnlocal.
  pose proof (evolve_unfold sys Hloop) as Hrun. cbv zeta in Hrun.
  do 2 eexists. split; [exact Hrun|]. split.
  - rewrite !filter_app, !length_app, !Nat2Z.inj_add, Hnfull.
    destruct (canonicalize_every_step (self sys)), (final_compression (self sys));
      cbn [filter is_full_compress List.length]; lia.
  - apply length_zero_iff_nil.
    rewrite !filter_app, !length_app, Hnlocal.
    destruct (canonicalize_every_step (self sys)), (final_compression (self sys));
      reflexivity.
Qed.

(** X13.  Without [full_compression], [evolve()] makes one local compression
    for each step whose operator spans more than one site, and none for the
    others. *)
Theorem evolve_local_compression_count sys :
  full_compression (self sys) = false ->
  exists sys' t,
    evolve sys = (Ok tt, sys', t)
    /\ List.length (filter is_local_compress t)
       = List.length
           (filter (fun st => (1 <? mpo_len (snd st))%nat)
              (Propagator.trotter_steps (propagator (self sys)))).
Proof.
  intros Hfc.
  destruct (trotter_loop_effect
              (Propagator.trotter_steps (propagator (self sys)))
              (base_overlap (self sys)) (system_index (self sys))
              {| self := self sys; store := store_before_loop sys |})
    as (ov1 & last1 & p1 & n1 & h1 & t1 & Hloop & _ & _ & _ & _ & _ & _ & _
        & _ & Hnlocal).
  cbn [self store] in Hloop, Hnlocal.
  rewrite Hfc in Hnlocal.
  pose proof (evolve_unfold sys Hloop) as Hrun. cbv zeta in Hrun.
  do 2 eexists. split; [exact Hrun|].
  rewrite !filter_app, !length_app, Hnlocal.
  destruct (canonicalize_every_step (self sys)), (final_compression (self sys));
    cbn [filter is_local_compress List.length]; lia.
Qed.

(** ** What a run of steps leaves alone *)

(** X14.  [evolve()] keeps the propagator, the settings, the system index,
    the axes, the canonical form, the type tag and [base_overlap]. *)
Theorem evolve_keeps_configuration sys :
  exists sys' t,
    evolve sys = (Ok tt, sys', t)
    /\ propagator (self sys') = propagator (self sys)
    /\ base_settings (base (self sys')) = base_settings (base (self sys))
    /\ system_index (self sys') = system_index (self sys)
    /\ axes (self sys') = axes (self sys)
    /\ to_cform (self sys') = to_cform (self sys)
    /\ mpa_type (self sys') = mpa_type (self sys)
    /\ base_overlap (self sys') = base_overlap (self sys).
Proof.
  destruct (evolve_run sys) as (ov & p' & n' & h' & t & Hrun & _).
  do 2 eexists. split; [exact Hrun|].
  destruct sys as [s h]. destruct_self s. repeat split.
Qed.

Lemma evolve_store_step sys :
  exists sys' t,
    evolve sys = (Ok tt, sys', t)
    /\ (next (store sys) <= next (store sys'))%nat
    /\ (psi_t (self sys') = psi_t (self sys)
        \/ (next (store sys) <= psi_t (self sys'))%nat)
    /\ (forall l, (l < next (store sys))%nat -> l <> psi_t (self sys) ->
         cell (store sys') l = cell (store sys) l).
Proof.
  destruct (trotter_loop_effect
              (Propagator.trotter_steps (propagator (self sys)))
              (base_overlap (self sys)) (system_index (self sys))
              {| self := self sys; store := store_before_loop sys |})
    as (ov1 & last1 & p1 & n1 & h1 & t1 & Hloop & Hnext & Hp1 & Hframe & _).
  cbn [self store] in Hloop, Hnext, Hp1, Hframe.
  pose proof (evolve_unfold sys Hloop) as Hrun. cbv zeta in Hrun.
  rewrite next_store_before_loop in Hnext, Hp1, Hframe.
  assert (Hp : p1 = psi_t (self sys) \/ (next (store sys) <= p1)%nat).
  { rewrite Hp1. destruct (Propagator.trotter_steps (propagator (self sys)));
      [left; reflexivity | right; cbn [List.length]; lia]. }
  do 2 eexists. split; [exact Hrun|]. split.
  { cbn [store next write].
    destruct (final_compression (self sys));
      [|destruct (canonicalize_every_step (self sys))]; cbn [next write]; lia. }
  split; [exact Hp|].
  intros l Hl Hne. cbn [store].
  rewrite cell_after_loop_other by (destruct Hp; [congruence | lia]).
  rewrite Hframe by exact Hl. apply cell_store_before_loop_other, Hne.
Qed.

(** X15.  Over any number of calls of [evolve()] every array that existed
    before the first call and is not the chain the orchestrator held then is
    left as it was. *)
Theorem evolve_n_keeps_other_arrays N : forall sys,
  exists sys' t,
    evolve_n N sys = (Ok tt, sys', t)
    /\ (next (store sys) <= next (store sys'))%nat
    /\ (psi_t (self sys') = psi_t (self sys)
        \/ (next (store sys) <= psi_t (self sys'))%nat)
    /\ forall l, (l < next (store sys))%nat -> l <> psi_t (self sys) ->
         cell (store sys') l = cell (store sys) l.
Proof.
  induction N as [|N IH]; intros sys.
  - exists sys, []. repeat split; auto.
  - destruct (evolve_store_step sys) as (sys1 & t1 & Hrun1 & Hn1 & Hp1 & Hf1).
    destruct (IH sys1) as (sys2 & t2 & Hrun2 & Hn2 & Hp2 & Hf2).
    exists sys2, (t1 ++ t2).
    split; [cbn [evolve_n]; unfold bind; rewrite Hrun1, Hrun2; reflexivity|].
    split; [lia|].
    split; [destruct Hp1 as [Hp1|Hp1], Hp2 as [Hp2|Hp2];
            [left; congruence | right; lia | right; lia | right; lia]|].
    intros l Hl Hne. rewrite Hf2.
    + apply Hf1; assumption.
    + lia.
    + destruct Hp1 as [Hp1|Hp1]; [congruence | lia].
Qed.

End SweepTheory.

(** * The overlaps of a run *)

Section OverlapTheory.
Context `{MPNum} `{!StarTMPBase}.

Lemma accumulated_in_unit_interval (ovs : list Q) : forall start,
  in_unit_interval start -> Forall in_unit_interval ovs ->
  in_unit_interval (accumulated Qmult start ovs).
Proof.
  unfold accumulated.
  induction ovs as [|ov ovs IH]; intros start Hstart Hall; [exact Hstart|].
  inversion Hall as [|? ? Hov Hrest]; subst. cbn [fold_left].
  apply IH; [|exact Hrest].
  apply unit_interval_mult; assumption.
Qed.

(** One iteration: the overlap it returns is the one it was given times the
    overlaps its calls of [psi_t.compress] returned. *)
Lemma trotter_step_overlap overlap last start_at mpo sys :
  exists n' h' t,
    trotter_step (overlap, last) (start_at, mpo) sys
    = (Ok (accumulated Qmult overlap
             (step_compress_overlaps last (start_at, mpo) sys), start_at),
       {| self := touched (next (store sys)) n' (self sys); store := h' |}, t)
    /\ List.length (filter is_full_compress t)
       = List.length (step_compress_overlaps last (start_at, mpo) sys).
Proof.
  destruct_sys sys.
  unfold trotter_step, step_compress_overlaps, accumulated. cbn [fst snd].
  run. step_cases.
  all: do 3 eexists; split; reflexivity.
Qed.

Lemma trotter_loop_overlaps steps : forall overlap last sys,
  exists last' p' n' h' t,
    for_each steps trotter_step (overlap, last) sys
    = (Ok (accumulated Qmult overlap
             (loop_compress_overlaps steps (overlap, last) sys), last'),
       {| self := touched p' n' (self sys); store := h' |}, t)
    /\ List.length (filter is_full_compress t)
       = List.length (loop_compress_overlaps steps (overlap, last) sys).
Proof.
  induction steps as [|[start_at mpo] steps IH]; intros overlap last sys.
  - exists last, (psi_t (self sys)), (pmps_compression_step (self sys)),
      (store sys), [].
    rewrite touched_id. destruct sys. split; reflexivity.
  - destruct (trotter_step_overlap overlap last start_at mpo sys)
      as (n1 & h1 & t1 & Hstep & Hlen1).
    destruct (IH (accumulated Qmult overlap
                    (step_compress_overlaps last (start_at, mpo) sys)) start_at
                {| self := touched (next (store sys)) n1 (self sys); store := h1 |})
      as (last2 & p2 & n2 & h2 & t2 & Hloop & Hlen2).
    cbn [self] in Hloop. rewrite touched_touched in Hloop.
    exists last2, p2, n2, h2, (t1 ++ t2).
    cbn [loop_compress_overlaps snd]. rewrite Hstep.
    split.
    + cbn [for_each]. unfold bind at 1. rewrite Hstep, Hloop.
      unfold accumulated. rewrite fold_left_app. reflexivity.
    + rewrite filter_app, !length_app, Hlen1, Hlen2. reflexivity.
Qed.

(** One [evolve()]: the overlap of the step is [base_overlap] times the
    overlaps the calls of [psi_t.compress] returned, one per call, and the
    cumulative overlap is multiplied by it. *)
Lemma evolve_overlap_product sys :
  exists sys' t,
    evolve sys = (Ok tt, sys', t)
    /\ last_overlap (self sys')
       = accumulated Qmult (base_overlap (self sys)) (evolve_compress_overlaps sys)
    /\ cumulative_overlap (self sys')
       = (cumulative_overlap (self sys) * last_overlap (self sys'))%Q
    /\ base_overlap (self sys') = base_overlap (self sys)
    /\ List.length (filter is_full_compress t)
       = List.length (evolve_compress_overlaps sys).
Proof.
  destruct (trotter_loop_overlaps
              (Propagator.trotter_steps (propagator (self sys)))
              (base_overlap (self sys)) (system_index (self sys))
              {| self := self sys; store := store_before_loop sys |})
    as (last1 & p1 & n1 & h1 & t1 & Hloop & Hlen).
  cbn [self] in Hloop.
  pose proof (evolve_unfold sys Hloop) as Hrun. cbv zeta in Hrun.
  do 2 eexists. split; [exact Hrun|].
  unfold evolve_compress_overlaps. cbv zeta. rewrite Hloop.
  unfold held_chain. cbn [self store]. rewrite psi_t_touched.
  split; [|split; [|split]].
  - unfold accumulated. rewrite fold_left_app.
    destruct (final_compression (self sys)); reflexivity.
  - reflexivity.
  - destruct sys as [s h]. destruct_self s. reflexivity.
  - rewrite !filter_app, !length_app, Hlen.
    destruct (canonicalize_every_step (self sys)), (final_compression (self sys));
      cbn [filter is_full_compress List.length]; lia.
Qed.

Lemma unit_interval_mult_le (x y : Q) :
  in_unit_interval x -> in_unit_interval y -> (x * y <= x)%Q.
Proof.
  intros [Hx _] [_ Hy]. rewrite <- (Qmult_1_r x) at 2.
  apply Qmult_le_l; assumption.
Qed.

Lemma evolve_overlap_step sys :
  base_overlap (self sys) = 1 ->
  in_unit_interval (cumulative_overlap (self sys)) ->
  Forall in_unit_interval (evolve_compress_overlaps sys) ->
  exists sys' t,
    evolve sys = (Ok tt, sys', t)
    /\ base_overlap (self sys') = 1
    /\ in_unit_interval (cumulative_overlap (self sys'))
    /\ (cumulative_overlap (self sys') <= cumulative_overlap (self sys))%Q
    /\ cumulative_overlap (self sys')
       = (cumulative_overlap (self sys) * last_overlap (self sys'))%Q
    /\ in_unit_interval (last_overlap (self sys'))
    /\ last_overlap (self sys')
       = accumulated Qmult 1 (evolve_compress_overlaps sys)
    /\ List.length (filter is_full_compress t)
       = List.length (evolve_compress_overlaps sys).
Proof.
  intros Hbase Hcum Hall.
  destruct (evolve_overlap_product sys)
    as (sys' & t & Hrun & Hlast & Hcum' & Hbase' & Hlen).
  rewrite Hbase in Hlast, Hbase'.
  assert (Hunit : in_unit_interval (last_overlap (self sys'))).
  { rewrite Hlast. apply accumulated_in_unit_interval; [|exact Hall].
    split; [reflexivity | apply Qle_refl]. }
  exists sys', t. split; [exact Hrun|]. split; [exact Hbase'|].
  rewrite Hcum'.
  split; [apply unit_interval_mult; assumption|].
  split; [apply unit_interval_mult_le; assumption|].
  split; [reflexivity|]. split; [exact Hunit|]. split; assumption.
Qed.

Lemma run_overlaps_invariant N : forall sys,
  base_overlap (self sys) = 1 ->
  in_unit_interval (cumulative_overlap (self sys)) ->
  Forall in_unit_interval (run_compress_overlaps (S N) sys) ->
  exists sysN tN sysN1 tN1,
    evolve_n N sys = (Ok tt, sysN, tN)
    /\ evolve sysN = (Ok tt, sysN1, tN1)
    /\ in_unit_interval (cumulative_overlap (self sysN))
    /\ in_unit_interval (cumulative_overlap (self sysN1))
    /\ (cumulative_overlap (self sysN1) <= cumulative_overlap (self sysN))%Q
    /\ cumulative_overlap (self sysN1)
       = (cumulative_overlap (self sysN) * last_overlap (self sysN1))%Q
    /\ in_unit_interval (last_overlap (self sysN1))
    /\ last_overlap (self sysN1)
       = accumulated Qmult 1 (evolve_compress_overlaps sysN)
    /\ List.length (filter is_full_compress tN1)
       = List.length (evolve_compress_overlaps sysN).
Proof.
  induction N as [|N IH]; intros sys Hbase Hcum Hall;
    cbn [run_compress_overlaps] in Hall; apply Forall_app in Hall;
    destruct Hall as [Hfirst Hrest];
    destruct (evolve_overlap_step sys Hbase Hcum Hfirst)
      as (sys1 & t1 & Hrun & Hbase1 & Hcum1 & Hle & Hprod & Hlast & Hacc & Hlen).
  - exists sys, [], sys1, t1.
    split; [reflexivity|]. split; [exact Hrun|]. split; [exact Hcum|].
    split; [exact Hcum1|]. split; [exact Hle|]. split; [exact Hprod|].
    split; [exact Hlast|]. split; assumption.
  - rewrite Hrun in Hrest.
    destruct (IH sys1 Hbase1 Hcum1 Hrest)
      as (sysN & tN & sysN1 & tN1 & HrunN & Hrest').
    exists sysN, (t1 ++ tN), sysN1, tN1.
    split; [|exact Hrest'].
    cbn [evolve_n]. unfold bind. rewrite Hrun, HrunN. reflexivity.
Qed.

(** C7 (as amended).  When every call of [psi_t.compress] made over [N + 1]
    calls of [evolve()] on an orchestrator just constructed returns an overlap
    in (0, 1], then, in exact arithmetic: the cumulative overlap is 1 after
    construction and lies in (0, 1] after [N] and after [N + 1] calls; the
    last call multiplies it by the overlap of its step, which is 1 times the
    overlaps returned in that step, one per call, and lies in (0, 1]; so the
    last call does not increase the cumulative overlap. *)
Theorem cumulative_overlap_in_unit_interval psi_0 pr kw t0 kw0 h s h0 t0' N :
  __init__ psi_0 pr kw t0 kw0 h = (Ok s, h0, t0') ->
  Forall in_unit_interval
    (run_compress_overlaps (S N) {| self := s; store := h0 |}) ->
  cumulative_overlap s = 1
  /\ exists sysN tN sysN1 tN1,
       evolve_n N {| self := s; store := h0 |} = (Ok tt, sysN, tN)
       /\ evolve sysN = (Ok tt, sysN1, tN1)
       /\ in_unit_interval (cumulative_overlap (self sysN))
       /\ in_unit_interval (cumulative_overlap (self sysN1))
       /\ (cumulative_overlap (self sysN1) <= cumulative_overlap (self sysN))%Q
       /\ cumulative_overlap (self sysN1)
          = (cumulative_overlap (self sysN) * last_overlap (self sysN1))%Q
       /\ in_unit_interval (last_overlap (self sysN1))
       /\ last_overlap (self sysN1)
          = accumulated Qmult 1 (evolve_compress_overlaps sysN)
       /\ List.length (filter is_full_compress tN1)
          = List.length (evolve_compress_overlaps sysN).
Proof.
  intros Hinit Hall.
  destruct (init_counters _ _ _ _ _ _ Hinit) as (_ & _ & Hc0 & _ & Hb0 & _).
  split; [exact Hc0|].
  apply run_overlaps_invariant; [exact Hb0 | | exact Hall].
  cbn [self]. rewrite Hc0. split; [reflexivity | apply Qle_refl].
Qed.

End OverlapTheory.

(** * Construction and reset, in place *)

Section InPlace.
Context `{MPNum} `{!StarTMPBase}.

(** X1.  Construction works on the array it is given: when it returns, the
    orchestrator holds the very object [psi_0], that object holds the
    canonicalized (or compressed) initial chain divided by its norm, no array
    was allocated and no other array was written. *)
Theorem init_works_in_place psi_0 pr kw t0 kw0 h s h' t :
  __init__ psi_0 pr kw t0 kw0 h = (Ok s, h', t) ->
  let prepared :=
    match kw0 with
    | None => cform_canonicalize (cell h psi_0) (Propagator.to_cform pr)
    | Some k => pmps_compress (cell h psi_0) (Propagator.to_cform pr) k
    end in
  psi_t s = psi_0
  /\ cell h' psi_0 = mpa_itruediv prepared (mp_norm prepared)
  /\ next h' = next h
  /\ (forall l, l <> psi_0 -> cell h' l = cell h l)
  /\ t = [match kw0 with
          | None => CallCanonicalizeTo psi_0
          | Some k => CallCompressPmps psi_0 k
          end; CallItruediv psi_0].
Proof.
  destruct h as [c n]. unfold __init__, StarTMPBase_init.
  destruct kw0; run; step_cases; intros Heq; inversion Heq; subst; clear Heq.
  all: run; rewrite ?Nat.eqb_refl.
  all: repeat split; try reflexivity.
  all: intros l Hl; apply Nat.eqb_neq in Hl; rewrite ?Hl; reflexivity.
Qed.

Lemma reset_arrived_chain p sck p0ck sys :
  exists r sys' t,
    reset (Some p) sck p0ck sys = (r, sys', t)
    /\ cell (store sys') p = arrived_chain p p0ck sys
    /\ r = (if shape_compatible (propagator (self sys)) (arrived_chain p p0ck sys)
            then Ok tt else Raise ShapeMismatch)
    /\ self sys'
       = (let s1 :=
            set_stepno 0%Z
              (set_trotter_error 0
                 (set_base_overlap 1
                    (set_cumulative_overlap 1
                       (set_last_overlap 1
                          (set_pmps_compression_step 0%Z (self sys)))))) in
          if shape_compatible (propagator (self sys)) (arrived_chain p p0ck sys)
          then match sck with
               | Some kw =>
                   set_settings (derive_settings (propagator (self sys)) (Some kw))
                     (set_psi_t p s1)
               | None => set_psi_t p s1
               end
          else s1)
    /\ t = [match p0ck with
            | None => CallCanonicalizeTo p
            | Some kw => CallCompressPmps p kw
            end; CallItruediv (psi_t (self sys))].
Proof.
  pose proof (reset_new_state_run p sck p0ck sys) as Hrun. cbv zeta in Hrun.
  match type of Hrun with
  | _ = (_, {| self := _; store := ?h2 |}, _) =>
      assert (Hcell : cell h2 p = arrived_chain p p0ck sys)
  end.
  { unfold arrived_chain. cbn [cell write]. rewrite Nat.eqb_refl.
    destruct (Nat.eqb p (psi_t (self sys))) eqn:E; [|reflexivity].
    apply Nat.eqb_eq in E. subst p. rewrite Nat.eqb_refl. reflexivity. }
  rewrite Hcell in Hrun.
  do 3 eexists. split; [exact Hrun|].
  cbn [self store]. repeat split. exact Hcell.
Qed.

(** X10.  When the base class rejects the new state, [reset()] raises only
    after its own work is done: the argument is already canonicalized (or
    compressed), the chain held before is already divided by its norm and the
    counters are already reset, while the orchestrator still holds the old
    chain and its old settings. *)
Theorem reset_rejected_state_is_half_done p sck p0ck sys :
  shape_compatible (propagator (self sys)) (arrived_chain p p0ck sys) = false ->
  exists sys',
    reset (Some p) sck p0ck sys
    = (Raise ShapeMismatch, sys',
       [match p0ck with
        | None => CallCanonicalizeTo p
        | Some kw => CallCompressPmps p kw
        end; CallItruediv (psi_t (self sys))])
    /\ psi_t (self sys') = psi_t (self sys)
    /\ base_settings (base (self sys')) = base_settings (base (self sys))
    /\ cell (store sys') p = arrived_chain p p0ck sys
    /\ stepno (self sys') = 0%Z
    /\ cumulative_overlap (self sys') = 1
    /\ last_overlap (self sys') = 1
    /\ trotter_error (self sys') = 0
    /\ pmps_compression_step (self sys') = 0%Z.
Proof.
  intros Hrej.
  destruct (reset_arrived_chain p sck p0ck sys)
    as (r & sys' & t & Hrun & Hcell & Hr & Hself & Ht).
  rewrite Hrej in Hr, Hself. subst r t.
  exists sys'. split; [exact Hrun|].
  rewrite Hself. cbv zeta. destruct sys as [s h]. destruct_self s.
  repeat split. exact Hcell.
Qed.

(** X11.  When the base class accepts the new state, [reset()] followed by
    [N] calls of [evolve()] returns with the step counter at [N] and the
    accumulated Trotter error at [N] times the estimate of the propagator,
    whatever the counters were before the reset. *)
Theorem reset_then_evolve_n p sck p0ck sys N :
  shape_compatible (propagator (self sys)) (arrived_chain p p0ck sys) = true ->
  exists sys' t,
    (reset (Some p) sck p0ck ;; evolve_n N) sys = (Ok tt, sys', t)
    /\ stepno (self sys') = Z.of_nat N
    /\ (trotter_error (self sys')
        == inject_Z (Z.of_nat N)
           * Propagator.step_trotter_error (propagator (self sys)))%Q.
Proof.
  intros Hacc.
  destruct (reset_arrived_chain p sck p0ck sys)
    as (r & sys1 & t1 & Hrun & _ & Hr & Hself & _).
  rewrite Hacc in Hr, Hself. subst r. cbv zeta in Hself.
  destruct (evolve_n_run N sys1)
    as (sys2 & t2 & Hrun2 & Hstep & Herr & _).
  assert (Hfresh : stepno (self sys1) = 0%Z /\ trotter_error (self sys1) = 0
                   /\ propagator (self sys1) = propagator (self sys)).
  { rewrite Hself. destruct sck; repeat split. }
  destruct Hfresh as (Hs0 & He0 & Hpr).
  rewrite Hs0 in Hstep. rewrite He0, Hpr in Herr.
  exists sys2, (t1 ++ t2).
  split; [unfold bind; rewrite Hrun, Hrun2; reflexivity|].
  split; [lia | rewrite Herr; ring].
Qed.

End InPlace.

(** * The instance of one amplitude: runs *)

Import Amplitude.

(** One step of the star of five sites with compression after each sweep and
    ancilla compression at every turn: the step counter is 1, the error is
    the estimate of the propagator and nothing was lost. *)
Example star5_one_step :
  option_map
    (fun r => (stepno (self (snd (fst r))), trotter_error (self (snd (fst r))),
               cumulative_overlap (self (snd (fst r))), cadence_of r))
    (after_init (false, true, false, Some 1%Z) evolve)
  = Some (1%Z, 0 + (1 # 1000000), 1,
          (1%Z, [CallCompressPmpsSites 3%nat; CallCompressPmpsSites 6%nat])).
Proof. reflexivity. Qed.

(** C1 (as stated) fails.  On the star of five sites the offset 1 after the
    system index 2 is no sweep turn and the offset 0 after the offset 1 is
    one.  Without [full_compression] the chain is not compressed as a whole
    at the turn: a local compression is made at both offsets.  With
    [full_compression] no local compression is made at the offset 1, though
    the operator spans two sites. *)
Lemma compression_policy_counterexample :
  sweep_turn 5 1 2 = false
  /\ sweep_turn 5 0 1 = true
  /\ option_map snd (after_init (false, false, false, None) first_two_steps)
     = Some [CallPartialdot 0%nat 1 2%nat; CallLcCompress 2%nat 1;
             CallPartialdot 2%nat 0 3%nat; CallLcCompress 3%nat 0]
  /\ option_map snd (after_init (false, true, false, None) first_two_steps)
     = Some [CallPartialdot 0%nat 1 2%nat;
             CallPartialdot 2%nat 0 3%nat;
             CallCompress 3%nat (false, true, false, None)].
Proof. vm_compute. repeat split. Qed.

(** C2 (as stated) fails.  With period 2 the first sweep turn advances the
    counter from 1 to 2, the period, and [compress_pmps_sites] is not run.
    With period 1 the same turn runs [compress_pmps_sites], and the counter
    is 1 afterwards, not 0. *)
Lemma cadence_counter_counterexample :
  option_map cadence_of (after_init (false, true, false, Some 2%Z) first_two_steps)
  = Some (2%Z, [])
  /\ option_map cadence_of (after_init (false, true, false, Some 1%Z) first_two_steps)
     = Some (1%Z, [CallCompressPmpsSites 3%nat]).
Proof. vm_compute. split; reflexivity. Qed.

(** C3 (the code on it).  The orchestrator is built on the chain of amplitude
    3 and holds it with norm 1.  [reset] with the chain of amplitude 2 at
    location 1 returns, the orchestrator then holds that chain, and its norm
    is 2: the chain that was divided by its norm is the old one. *)
Lemma reset_installs_unnormalized_chain :
  match after_init (false, true, false, None) (ret tt) with
  | Some (_, sys0, _) =>
      psi_t (self sys0) = 0%nat /\ (mp_norm (held_chain sys0) == 1)%Q
  | None => False
  end
  /\ match after_init (false, true, false, None) (reset (Some 1%nat) None None) with
     | Some (Ok tt, sys', t) =>
         psi_t (self sys') = 1%nat
         /\ (mp_norm (held_chain sys') == 2)%Q
         /\ t = [CallCanonicalizeTo 1%nat; CallItruediv 0%nat]
     | _ => False
     end.
Proof. vm_compute. repeat split. Qed.

(** The argument of [reset] is changed: the chain at location 1 is not in
    canonical form before the call and is afterwards. *)
Example reset_changes_argument :
  cell store0 1%nat = {| amp := 2; canonical := false |}
  /\ option_map (fun r => cell (store (snd (fst r))) 1%nat)
       (after_init (false, true, false, None) (reset (Some 1%nat) None None))
     = Some {| amp := 2; canonical := true |}.
Proof. vm_compute. split; reflexivity. Qed.

Lemma evolve_n_step_counter_and_error_witness :
  exists s h0 t,
    __init__ 0%nat star5 (Some (false, true, false, Some 1%Z)) 0 None store0
    = (Ok s, h0, t)
    /\ exists sysN tN sysN1 tN1,
         evolve_n 3 {| self := s; store := h0 |} = (Ok tt, sysN, tN)
         /\ evolve sysN = (Ok tt, sysN1, tN1)
         /\ stepno (self sysN) = 3%Z
         /\ trotter_error (self sysN)
            = accumulated Qplus 0 (repeat (Propagator.step_trotter_error star5) 3)
         /\ (trotter_error (self sysN)
             == inject_Z 3 * Propagator.step_trotter_error star5)%Q
         /\ stepno (self sysN1) = 4%Z
         /\ trotter_error (self sysN1)
            = (trotter_error (self sysN) + Propagator.step_trotter_error star5)%Q
         /\ ((0 <= Propagator.step_trotter_error star5)%Q ->
             (trotter_error (self sysN) <= trotter_error (self sysN1))%Q).
Proof.
  do 3 eexists. split; [reflexivity|].
  eapply (@evolve_n_step_counter_and_error _ _ 0%nat star5
           (Some (false, true, false, Some 1%Z)) 0 None store0 _ _ _ 3%nat).
  reflexivity.
Defined.

Lemma init_precondition_checks_witness :
  shape_compatible star5 (cell store0 0%nat) = true
  /\ ((exists e h' t,
         __init__ 0%nat star5 None 0 None store0 = (Raise e, h', t))
      <-> (Propagator.ancilla_sites star5 = false
           \/ Propagator.build_adj star5 = true))
  /\ exists s h' t, __init__ 0%nat star5 None 0 None store0 = (Ok s, h', t).
Proof.
  assert (Hfits : shape_compatible star5 (cell store0 0%nat) = true)
    by reflexivity.
  split; [exact Hfits|].
  destruct (init_precondition_checks 0%nat star5 None 0 None store0 Hfits)
    as (Hiff & _ & _ & Hok).
  split; [exact Hiff | apply Hok; reflexivity].
Defined.

(** * The instance of one amplitude: further runs *)

(** [__init__] on the star of five sites gives the sample orchestrator on the
    store it leaves. *)
Example init_gives_sample_orchestrator :
  match __init__ 0%nat star5 (Some (false, true, false, Some 1%Z)) 0 None store0 with
  | (Ok s, h, _) =>
      {| self := s; store := h |}
      = Samples.orchestrator (false, true, false, Some 1%Z) h
  | (Raise _, _, _) => False
  end.
Proof. vm_compute. reflexivity. Qed.

Lemma init_works_in_place_witness :
  exists s h' t,
    __init__ 0%nat star5 None 0 None store0 = (Ok s, h', t)
    /\ psi_t s = 0%nat
    /\ cell h' 0%nat
       = mpa_itruediv (cform_canonicalize (cell store0 0%nat) tt)
           (mp_norm (cform_canonicalize (cell store0 0%nat) tt))
    /\ next h' = next store0
    /\ (forall l, l <> 0%nat -> cell h' l = cell store0 l)
    /\ t = [CallCanonicalizeTo 0%nat; CallItruediv 0%nat].
Proof.
  do 3 eexists. split; [reflexivity|].
  eapply (@init_works_in_place _ _ 0%nat star5 None 0 None store0).
  reflexivity.
Defined.

Lemma evolve_moves_to_new_array_witness :
  let sys := Samples.orchestrator (false, true, false, Some 1%Z) store0 in
  (psi_t (self sys) < next (store sys))%nat
  /\ Propagator.trotter_steps (propagator (self sys)) <> []
  /\ exists sys' t,
       evolve sys = (Ok tt, sys', t)
       /\ (next (store sys) <= psi_t (self sys'))%nat
       /\ cell (store sys') 0%nat = {| amp := 3; canonical := true |}.
Proof.
  intros sys.
  assert (Hwf : (psi_t (self sys) < next (store sys))%nat) by (cbn; lia).
  assert (Hsteps : Propagator.trotter_steps (propagator (self sys)) <> [])
    by discriminate.
  split; [exact Hwf|]. split; [exact Hsteps|].
  exact (evolve_moves_to_new_array sys Hwf Hsteps).
Defined.

Lemma evolve_local_compression_records_no_loss_witness :
  let sys := Samples.orchestrator (false, false, false, None) store0 in
  full_compression (self sys) = false
  /\ final_compression (self sys) = false
  /\ exists sys' t,
       evolve sys = (Ok tt, sys', t)
       /\ filter is_full_compress t = []
       /\ last_overlap (self sys') = 1
       /\ cumulative_overlap (self sys') = (1 * 1)%Q.
Proof.
  intros sys. split; [reflexivity|]. split; [reflexivity|].
  exact (evolve_local_compression_records_no_loss sys eq_refl eq_refl).
Defined.

Lemma evolve_cadence_counter_bounds_witness :
  let sys := Samples.orchestrator (false, true, false, Some 3%Z) store0 in
  system_index (self sys) <> 0%Z
  /\ compress_sites_step (self sys) = Some 3%Z
  /\ (1 <= 3)%Z
  /\ (0 <= pmps_compression_step (self sys) <= 3)%Z
  /\ exists sys' t,
       evolve sys = (Ok tt, sys', t)
       /\ (Z.min (pmps_compression_step (self sys)) 1
           <= pmps_compression_step (self sys') <= 3)%Z.
Proof.
  intros sys.
  assert (Hsi : system_index (self sys) <> 0%Z) by discriminate.
  assert (Hp : (1 <= 3)%Z) by lia.
  assert (Hrange : (0 <= pmps_compression_step (self sys) <= 3)%Z) by (cbn; lia).
  split; [exact Hsi|]. split; [reflexivity|]. split; [exact Hp|].
  split; [exact Hrange|].
  exact (evolve_cadence_counter_bounds sys Hsi eq_refl Hp Hrange).
Defined.

Lemma evolve_never_compresses_sites_witness :
  let sys := Samples.orchestrator (false, true, false, None) store0 in
  exists sys' t,
    evolve sys = (Ok tt, sys', t)
    /\ filter is_compress_sites t = []
    /\ pmps_compression_step (self sys') = 3%Z.
Proof.
  intros sys. exact (evolve_never_compresses_sites sys I).
Defined.

Lemma evolve_full_compression_count_witness :
  let sys := Samples.orchestrator (false, true, true, None) store0 in
  full_compression (self sys) = true
  /\ exists sys' t,
       evolve sys = (Ok tt, sys', t)
       /\ Z.of_nat (List.length (filter is_full_compress t)) = 3%Z
       /\ filter is_local_compress t = [].
Proof.
  intros sys. split; [reflexivity|].
  exact (evolve_full_compression_count sys eq_refl).
Defined.

Lemma evolve_local_compression_count_witness :
  let sys := Samples.orchestrator (false, false, false, None) store0 in
  full_compression (self sys) = false
  /\ exists sys' t,
       evolve sys = (Ok tt, sys', t)
       /\ List.length (filter is_local_compress t) = 8%nat.
Proof.
  intros sys. split; [reflexivity|].
  exact (evolve_local_compression_count sys eq_refl).
Defined.

Lemma reset_rejected_state_is_half_done_witness :
  let sys := Samples.orchestrator (false, true, false, Some 1%Z) Picky.store1 in
  @shape_compatible _ Picky.tmpbase (propagator (self sys))
    (arrived_chain 1%nat None sys) = false
  /\ exists sys',
       @reset _ Picky.tmpbase (Some 1%nat) None None sys
       = (Raise ShapeMismatch, sys', [CallCanonicalizeTo 1%nat; CallItruediv 0%nat])
       /\ psi_t (self sys') = 0%nat
       /\ cell (store sys') 1%nat = {| amp := 5; canonical := true |}
       /\ stepno (self sys') = 0%Z
       /\ pmps_compression_step (self sys') = 0%Z.
Proof.
  intros sys.
  assert (Hrej : @shape_compatible _ Picky.tmpbase (propagator (self sys))
                   (arrived_chain 1%nat None sys) = false) by reflexivity.
  split; [exact Hrej|].
  destruct (@reset_rejected_state_is_half_done _ Picky.tmpbase 1%nat None None
              sys Hrej)
    as (sys' & Hrun & Hpsi & _ & Hcell & Hstep & _ & _ & _ & Hcad).
  exists sys'. repeat split; assumption.
Defined.

Lemma reset_then_evolve_n_witness :
  let sys := Samples.orchestrator (false, true, false, Some 1%Z) store0 in
  shape_compatible (propagator (self sys)) (arrived_chain 1%nat None sys) = true
  /\ exists sys' t,
       (reset (Some 1%nat) None None ;; evolve_n 2) sys = (Ok tt, sys', t)
       /\ stepno (self sys') = 2%Z
       /\ (trotter_error (self sys')
           == inject_Z 2 * Propagator.step_trotter_error star5)%Q.
Proof.
  intros sys.
  assert (Hacc : shape_compatible (propagator (self sys))
                   (arrived_chain 1%nat None sys) = true) by reflexivity.
  split; [exact Hacc|].
  exact (reset_then_evolve_n 1%nat None None sys 2 Hacc).
Defined.

(** * Exact and binary64 arithmetic *)

(** C6 (as stated) fails in the floats of Python.  0.1 is the float
    0x1.999999999999ap-4; ten additions of it, one after the other from 0,
    give 0x1.fffffffffffffp-1, which is below 10 times 0.1, that is 1. *)
Lemma trotter_error_binary64_counterexample :
  Binary64.tenth = SpecFloat.S754_finite false 7205759403792794 (-56)
  /\ Binary64.mul Binary64.ten Binary64.tenth = Binary64.one
  /\ Binary64.trotter_error_after 10 Binary64.tenth
     = SpecFloat.S754_finite false 9007199254740991 (-53)
  /\ Binary64.ltb (Binary64.trotter_error_after 10 Binary64.tenth)
       (Binary64.mul Binary64.ten Binary64.tenth) = true
  /\ Binary64.trotter_error_after 10 Binary64.tenth
     <> Binary64.mul Binary64.ten Binary64.tenth.
Proof. vm_compute. repeat split. discriminate. Qed.

(** C7 (as stated) fails in the floats of Python.  The overlap 0.5 lies in
    (0, 1]; after 1100 steps of overlap 0.5 the cumulative overlap, 1
    multiplied 1100 times by 0.5, is 0 and not positive. *)
Lemma cumulative_overlap_binary64_counterexample :
  Binary64.ltb Binary64.zero Binary64.half = true
  /\ Binary64.leb Binary64.half Binary64.one = true
  /\ Binary64.cumulative_overlap_after (repeat Binary64.half 1100)
     = Binary64.zero
  /\ Binary64.ltb Binary64.zero
       (Binary64.cumulative_overlap_after (repeat Binary64.half 1100)) = false.
Proof. vm_compute. repeat split. Qed.


(** The compression of [Squared] reports 4 on the chain of amplitude 2: not
    every compression of every chain reports an overlap in (0, 1]. *)
Example squared_overlap_can_exceed_one :
  ~ @overlaps_in_unit_interval Squared.mpnum.
Proof.
  intros Hall.
  destruct (Hall {| amp := 2; canonical := false |} (false, false, false, None))
    as [_ Hle].
  vm_compute in Hle. apply Hle. reflexivity.
Qed.

Lemma cumulative_overlap_in_unit_interval_witness :
  exists s h0 t,
    @__init__ Squared.mpnum Squared.tmpbase 0%nat Squared.star5
      (Some (false, true, true, None)) 0 None Squared.store0
    = (Ok s, h0, t)
    /\ Forall in_unit_interval
         (@run_compress_overlaps Squared.mpnum 2 {| self := s; store := h0 |})
    /\ map Qred
         (@run_compress_overlaps Squared.mpnum 1 {| self := s; store := h0 |})
       = [1 # 16; 1 # 1024; 1 # 65536]
    /\ cumulative_overlap s = 1
    /\ exists sysN tN sysN1 tN1,
         evolve_n 1 {| self := s; store := h0 |} = (Ok tt, sysN, tN)
         /\ evolve sysN = (Ok tt, sysN1, tN1)
         /\ in_unit_interval (cumulative_overlap (self sysN))
         /\ in_unit_interval (cumulative_overlap (self sysN1))
         /\ (cumulative_overlap (self sysN1) <= cumulative_overlap (self sysN))%Q
         /\ cumulative_overlap (self sysN1)
            = (cumulative_overlap (self sysN) * last_overlap (self sysN1))%Q
         /\ in_unit_interval (last_overlap (self sysN1))
         /\ last_overlap (self sysN1)
            = accumulated Qmult 1 (evolve_compress_overlaps sysN)
         /\ List.length (filter is_full_compress tN1)
            = List.length (evolve_compress_overlaps sysN).
Proof.
  do 3 eexists. split; [reflexivity|].
  match goal with
  | |- ?A /\ _ => assert (Hall : A)
  end.
  { vm_compute. repeat apply Forall_cons; try apply Forall_nil.
    all: split; [reflexivity | discriminate]. }
  split; [exact Hall|]. split; [vm_compute; reflexivity|].
  eapply (@cumulative_overlap_in_unit_interval Squared.mpnum Squared.tmpbase
            0%nat Squared.star5 (Some (false, true, true, None)) 0 None
            Squared.store0 _ _ _ 1%nat).
  - reflexivity.
  - exact Hall.
Defined.
